(** * Higra: cut labelling, tree accumulators and LCA queries

    A shallow embedding of
      - [include/higra/algo/cut.hpp]            (graph_cut_2_labelisation),
      - [python/higra/cpp/accumulator/py_tree_accumulators.cpp]
                                                (the accumulator bindings),
      - [python/higra/cpp/py_lca_fast.cpp]      (the LCA binding),
    together with the properties the specification states about them. *)

From Stdlib Require Import ZArith Lia.
From stdpp Require Import base option list relations strings.

(** ** Outcomes of a call

    Every entry point either returns a value or throws
    [std::runtime_error] with a message.  [OutOfFuel] is the outcome of
    a loop of the model that was cut short by its iteration budget; the
    theorems show that the cut labelling never produces it. *)

Inductive result (A : Type) : Type :=
  | Ok (a : A)
  | Throw (msg : string)
  | OutOfFuel.
Arguments Ok {A} a.
Arguments Throw {A} msg.
Arguments OutOfFuel {A}.

#[global] Instance result_bind : MBind result := λ A B k r,
  match r with
  | Ok a => k a
  | Throw msg => Throw msg
  | OutOfFuel => OutOfFuel
  end.

(** Modelled from the spec: the macro [hg_assert], defined in a header
    outside the embedded files; a violated precondition "fails with a
    shape/dimension error", so a failed test throws with its message. *)
Definition hg_assert (test : bool) (msg : string) : result unit :=
  if test then Ok tt else Throw msg.

(** ** Cut labelling ([include/higra/algo/cut.hpp]) *)

Module Cut.

(** Modelled from the spec: the graph type and its accessors, declared
    in [graph.hpp], outside the embedded files.  A graph has vertices
    [0 .. num_vertices-1] and edges, "each an unordered pair of vertex
    indices plus an implicit edge index [0 .. num_edges-1]"; it provides
    "vertex count, edge count, edge iteration, per-vertex out-edge
    iteration". *)
Record graph : Type := Graph {
  num_vertices : nat;
  edges : list (nat * nat)
}.

Definition num_edges (g : graph) : nat := length (edges g).

Definition vertex_iterator (g : graph) : list nat := seq 0 (num_vertices g).

Definition edge (edge_index : nat) (g : graph) : option (nat * nat) :=
  edges g !! edge_index.

Definition incident (cv : nat) (e : nat * nat) : bool :=
  (e.1 =? cv) || (e.2 =? cv).

(** The indices of the edges that have [cv] as an endpoint, in
    increasing order. *)
Definition out_edge_index_iterator (cv : nat) (g : graph) : list nat :=
  List.filter
    (λ i, match edge i g with Some e => incident cv e | None => false end)
    (seq 0 (num_edges g)).

Definition other_vertex (e : nat * nat) (cv : nat) : nat :=
  if e.1 =? cv then e.2 else e.1.

(** Every endpoint of an edge is a vertex of the graph. *)
Definition wf_graph (g : graph) : Prop :=
  ∀ i s t, edges g !! i = Some (s, t) → s < num_vertices g ∧ t < num_vertices g.

(** An xtensor expression: its shape and its elements in row-major
    order.  [dimension] is the number of axes, [size] the number of
    elements.  The elements are integers; the labelling only compares
    them with zero. *)
Record xarray : Type := XArray {
  shape : list nat;
  data : list Z
}.

Definition dimension (a : xarray) : nat := length (shape a).
Definition size (a : xarray) : nat := foldr Nat.mul 1 (shape a).

(** The one-dimensional array holding the elements [l]. *)
Definition array_1d (l : list Z) : xarray := XArray [length l] l.

(** [edge_weights(edge_index) == 0] *)
Definition weight_is_zero (edge_weights : xarray) (edge_index : nat) : bool :=
  match data edge_weights !! edge_index with
  | Some x => (x =? 0)%Z
  | None => false
  end.

(** Modelled from the spec: the constant [invalid_index], declared
    outside the embedded files; a label is a "positive integer or
    sentinel unset".  Labels of type [index_t] are integers here: the
    label counter never exceeds the number of vertices
    ([label_counter_bounded]), so it does not wrap. *)
Definition invalid_index : Z := (-1)%Z.

(** [labels(v)] *)
Definition label_at (labels : list Z) (v : nat) : Z :=
  default invalid_index (labels !! v).

(** The body of the [for] loop over the out-edges of [cv]
    (cut.hpp, lines 52-59). *)
Definition visit_edge (g : graph) (edge_weights : xarray) (cv : nat)
    (current_label : Z) (st : list Z * list nat) (edge_index : nat)
    : list Z * list nat :=
  let '(labels, stack) := st in
  if weight_is_zero edge_weights edge_index then
    match edge edge_index g with
    | Some e =>
        let n := other_vertex e cv in
        if (label_at labels n =? invalid_index)%Z
        then (<[n := current_label]> labels, n :: stack)
        else (labels, stack)
    | None => (labels, stack)
    end
  else (labels, stack).

(** The [for] loop over the out-edges of [cv] (cut.hpp, line 51). *)
Definition visit_out_edges (g : graph) (edge_weights : xarray) (cv : nat)
    (current_label : Z) (st : list Z * list nat) : list Z * list nat :=
  foldl (visit_edge g edge_weights cv current_label) st
        (out_edge_index_iterator cv g).

(** The [while] loop on the stack (cut.hpp, lines 48-61); each
    iteration uses one unit of [fuel]. *)
Fixpoint flood (fuel : nat) (g : graph) (edge_weights : xarray)
    (current_label : Z) (labels : list Z) (stack : list nat)
    : option (list Z) :=
  match stack with
  | [] => Some labels
  | cv :: stack =>
      match fuel with
      | 0 => None
      | S fuel =>
          let '(labels, stack) :=
            visit_out_edges g edge_weights cv current_label (labels, stack) in
          flood fuel g edge_weights current_label labels stack
      end
  end.

(** The outer [for] loop over the vertices (cut.hpp, lines 43-63),
    returning the labels and the label counter. *)
Fixpoint scan (g : graph) (edge_weights : xarray) (vs : list nat)
    (labels : list Z) (current_label : Z) : option (list Z * Z) :=
  match vs with
  | [] => Some (labels, current_label)
  | v :: vs =>
      if (label_at labels v =? invalid_index)%Z then
        let current_label := (current_label + 1)%Z in
        match flood (num_vertices g) g edge_weights current_label
                    (<[v := current_label]> labels) [v] with
        | Some labels => scan g edge_weights vs labels current_label
        | None => None
        end
      else scan g edge_weights vs labels current_label
  end.

(** Lines 38-63: the freshly filled label array, then the scan. *)
Definition label_components (g : graph) (edge_weights : xarray)
    : option (list Z * Z) :=
  scan g edge_weights (vertex_iterator g)
       (replicate (num_vertices g) invalid_index) 0%Z.

Definition graph_cut_2_labelisation (g : graph) (edge_weights : xarray)
    : result (list Z) :=
  _ ← hg_assert (dimension edge_weights =? 1) "Edge weights must be scalar.";
  _ ← hg_assert (num_edges g =? size edge_weights)
        "Edge weights size does not match graph number of edges.";
  match label_components g edge_weights with
  | Some (labels, _) => Ok labels
  | None => OutOfFuel
  end.

(** The path graph [0 - 1 - ... - (n-1)], edge [i] joining [i] and
    [i+1], as built by the Pink graph test. *)
Definition path_graph (n : nat) : graph :=
  Graph n (map (λ i, (i, S i)) (seq 0 (n - 1))).

Definition pink_edge_weights : list Z :=
  [3; 0; 0; 1; 3; 0; 1; 0; 2; 0; 1; 0; 3; 0]%Z.

(** *** Specification vocabulary *)

(** [u] and [v] are the endpoints of an edge whose weight is zero. *)
Definition adjacent (g : graph) (w : xarray) (u v : nat) : Prop :=
  ∃ i s t, edges g !! i = Some (s, t) ∧ data w !! i = Some 0%Z ∧
           ((u = s ∧ v = t) ∨ (u = t ∧ v = s)).

(** [u] and [v] are joined by a path of edges whose weight is zero. *)
Definition connected (g : graph) (w : xarray) : nat → nat → Prop :=
  rtc (adjacent g w).

Definition labelled (labels : list Z) (v : nat) (l : Z) : Prop :=
  labels !! v = Some l ∧ l ≠ invalid_index.

Definition count_invalid (labels : list Z) : nat :=
  length (List.filter (λ l, (l =? invalid_index)%Z) labels).

(** The state of the outer loop when it reaches vertex [i] with label
    counter [k]. *)
Record scan_inv (g : graph) (w : xarray) (i : nat) (labels : list Z) (k : Z)
    : Prop := ScanInv {
  si_length : length labels = num_vertices g;
  si_counter : (0 ≤ k ≤ Z.of_nat i)%Z;
  si_range : ∀ v l, labelled labels v l → (1 ≤ l ≤ k)%Z;
  si_done : ∀ v, v < i → v < num_vertices g → ∃ l, labelled labels v l;
  si_closed : ∀ u v l, labelled labels u l → adjacent g w u v →
                       labels !! v = Some l;
  si_conn : ∀ u v l, labelled labels u l → labels !! v = Some l →
                     connected g w u v;
  si_used : ∀ l, (1 ≤ l ≤ k)%Z → ∃ v, v < i ∧ labels !! v = Some l;
  si_growth : ∀ v l, labels !! v = Some l → (2 ≤ l)%Z →
                     ∃ u, u < v ∧ labels !! u = Some (l - 1)%Z
}.

Arguments si_length {g w i labels k} _.
Arguments si_counter {g w i labels k} _.
Arguments si_range {g w i labels k} _ v l _.
Arguments si_done {g w i labels k} _ v _ _.
Arguments si_closed {g w i labels k} _ u v l _ _.
Arguments si_conn {g w i labels k} _ u v l _ _.
Arguments si_used {g w i labels k} _ l _.
Arguments si_growth {g w i labels k} _ v l _ _.

(** The state of the flood fill of the component of [r] with label [c],
    started from the labels [labels0]; [pend] are the vertices whose
    out-edges are still to be visited. *)
Record flood_inv (g : graph) (w : xarray) (labels0 : list Z) (c : Z) (r : nat)
    (labels : list Z) (pend : list nat) : Prop := FloodInv {
  fi_length : length labels = num_vertices g;
  fi_root : labels !! r = Some c;
  fi_frame : ∀ x, labels !! x = labels0 !! x ∨
                  (labels0 !! x = Some invalid_index ∧ labels !! x = Some c ∧
                   connected g w r x);
  fi_pend : ∀ x, x ∈ pend → labels !! x = Some c;
  fi_closed : ∀ x, labels !! x = Some c →
                   x ∈ pend ∨ ∀ y, adjacent g w x y → labels !! y = Some c
}.

Arguments fi_length {g w labels0 c r labels pend} _.
Arguments fi_root {g w labels0 c r labels pend} _.
Arguments fi_frame {g w labels0 c r labels pend} _ x.
Arguments fi_pend {g w labels0 c r labels pend} _ x _.
Arguments fi_closed {g w labels0 c r labels pend} _ x _.

(** What the visit of the out-edge [i] of [cv] establishes: the flood
    invariant with [cv] still pending, labels that only grow, a constant
    sum of unlabelled vertices and stack height, and a labelled
    neighbour across a zero-weight edge. *)
Definition visit_post (g : graph) (w : xarray) (labels0 : list Z) (c : Z)
    (r cv i : nat) (labels : list Z) (stack : list nat)
    (labels' : list Z) (stack' : list nat) : Prop :=
  flood_inv g w labels0 c r labels' (cv :: stack') ∧
  (∀ x l, labelled labels x l → labels' !! x = Some l) ∧
  count_invalid labels' + length stack' = count_invalid labels + length stack ∧
  (∀ e, weight_is_zero w i = true → edge i g = Some e →
        ∃ l, labelled labels' (other_vertex e cv) l).

(** Executable form of [wf_graph]. *)
Definition wf_graphb (g : graph) : bool :=
  forallb (λ e, (e.1 <? num_vertices g) && (e.2 <? num_vertices g)) (edges g).

(** A square of four vertices, used to instantiate the theorems:
    edges 0-1, 1-2, 2-3 and 3-0, of which 1-2 and 3-0 are cut. *)
Definition square : graph := Graph 4 [(0, 1); (1, 2); (2, 3); (3, 0)].
Definition square_cut : xarray := array_1d [0; 5; 0; 2]%Z.
Definition square_cut' : xarray := array_1d [0; -1; 0; 9]%Z.

(** [v] is the vertex at which the outer scan discovers its component:
    no vertex of smaller index is connected to it. *)
Definition discovers (g : graph) (w : xarray) (v : nat) : Prop :=
  ∀ x, x < v → ¬ connected g w x v.

(** The number of distinct labels of a label array. *)
Definition distinct_labels (labels : list Z) : nat :=
  length (remove_dups labels).

(** The positions [i] at which consecutive entries [i] and [i+1] differ. *)
Definition boundaries (labels : list Z) : list nat :=
  List.filter (λ i, negb (label_at labels i =? label_at labels (S i))%Z)
              (seq 0 (length labels - 1)).

(** The positions that hold a non-zero weight. *)
Definition non_zero_positions (ws : list Z) : list nat :=
  List.filter (λ i, negb (weight_is_zero (array_1d ws) i)) (seq 0 (length ws)).

End Cut.

(** ** Trees *)

Module Tree.

(** Modelled from the spec: the tree type of [graph.hpp], outside the
    embedded files.  "Every vertex [v < num_vertices - 1] has a parent
    [parent(v) > v]; the root is the unique vertex with
    [parent(root) == root]; leaves are exactly [0 .. num_leaves-1]." *)
Record tree : Type := MkTree {
  parents : list nat;
  num_leaves : nat
}.

Definition num_vertices (t : tree) : nat := length (parents t).
Definition root (t : tree) : nat := num_vertices t - 1.
Definition parent (v : nat) (t : tree) : nat := default 0 (parents t !! v).

(** The children of [v], in increasing index order. *)
Definition is_child (v : nat) (t : tree) (u : nat) : bool :=
  (parent u t =? v) && negb (u =? v).
Definition children (v : nat) (t : tree) : list nat :=
  List.filter (is_child v t) (seq 0 (num_vertices t)).

(** The tree invariant of the data model. *)
Record wf_tree (t : tree) : Prop := WfTree {
  wf_nonempty : 1 ≤ num_vertices t;
  wf_leaves : num_leaves t ≤ num_vertices t;
  wf_root : parent (root t) t = root t;
  wf_parent : ∀ v, v < root t → v < parent v t < num_vertices t;
  wf_internal : ∀ v, v < root t → num_leaves t ≤ parent v t
}.

Definition wf_treeb (t : tree) : bool :=
  (1 <=? num_vertices t) && (num_leaves t <=? num_vertices t) &&
  (parent (root t) t =? root t) &&
  forallb (λ v, (v <? parent v t) && (parent v t <? num_vertices t) &&
                (num_leaves t <=? parent v t))
          (seq 0 (root t)).

(** [a(v)] for a one-dimensional array of numbers. *)
Definition value_at (a : list Z) (v : nat) : Z := default 0%Z (a !! v).

(** The binary tree with leaves 0-3, internal nodes 4 (parent of 0, 1)
    and 5 (parent of 2, 3), and root 6 (parent of 4, 5). *)
Definition binary_tree : tree := MkTree [4; 4; 5; 5; 6; 6; 6] 4.

End Tree.

(** ** Tree accumulators
    ([python/higra/cpp/accumulator/py_tree_accumulators.cpp]) *)

(** The members of the enumeration [hg::accumulators]. *)
Module accumulators.
Inductive t : Type := min | max | mean | counter | sum | prod | first | last.
End accumulators.

Module Accumulator.
Import Tree.

(** *** The engine, from the specification *)

(** Modelled from the spec: the reduction strategies of
    [higra/accumulator/tree_accumulator.hpp], outside the embedded
    files.  A reduction strategy is "a
    stateless algebraic object with an identity/neutral accumulation
    state, a per-element combine operation, and a finalize step
    converting accumulated state to the output value". *)
Record reducer : Type := Reducer {
  state : Type;
  neutral : state;
  combine : state → Z → state;
  finalize : state → Z
}.

Definition reduce (r : reducer) (xs : list Z) : Z :=
  finalize r (foldl (combine r) (neutral r) xs).

(** Modelled from the spec: the strategy [sum]. *)
Definition reducer_sum : reducer := Reducer Z 0%Z Z.add id.

(** Modelled from the spec: [hg::accumulate_sequential].  "Input length
    must equal [num_leaves].  Output has length [num_vertices].  For
    [v < num_leaves], output equals input.  For internal [v], output
    equals reducer applied to the already-computed outputs of v's
    children", "processing vertices in increasing index order from
    [num_leaves] to [num_vertices-1]". *)
Definition accumulate_vertex (t : tree) (r : reducer) (output : list Z)
    (v : nat) : list Z :=
  <[v := reduce r (map (value_at output) (children v t))]> output.

Definition accumulate_sequential (t : tree) (leaf_data : list Z) (r : reducer)
    : result (list Z) :=
  _ ← hg_assert (length leaf_data =? num_leaves t)
        "leaf_data size does not match the number of leaves of the tree.";
  Ok (foldl (accumulate_vertex t r)
            (leaf_data ++ replicate (num_vertices t - num_leaves t) 0%Z)
            (seq (num_leaves t) (num_vertices t - num_leaves t))).

(** A boolean array as the binding receives it; [pyarray<bool>{}], the
    default of the optional argument, has no axis. *)
Record bool_array : Type := BoolArray {
  bshape : list nat;
  bdata : list bool
}.
Definition bdimension (a : bool_array) : nat := length (bshape a).
Definition default_condition : bool_array := BoolArray [] [].
Definition condition_1d (l : list bool) : bool_array := BoolArray [length l] l.

(** Modelled from the spec: [hg::propagate_parallel].  "Each non-root
    vertex's output is simply [node_values[parent(v)]], gated by
    [condition] analogously to the sequential form when supplied" (there
    "output is [node_values[v]] if [condition[v]] is false" and "root's
    output equals its input unconditionally"); "any array length mismatch
    against [num_vertices] fails with a shape-mismatch error". *)
Definition propagate_parallel (t : tree) (input : list Z) : result (list Z) :=
  _ ← hg_assert (length input =? num_vertices t)
        "input size does not match the number of vertices of the tree.";
  Ok (map (λ v, if v =? root t then value_at input v
                else value_at input (parent v t))
          (seq 0 (num_vertices t))).

Definition propagate_parallel_if (t : tree) (input : list Z)
    (condition : bool_array) : result (list Z) :=
  _ ← hg_assert (length input =? num_vertices t)
        "input size does not match the number of vertices of the tree.";
  _ ← hg_assert ((bdimension condition =? 1) &&
                 (length (bdata condition) =? num_vertices t))
        "condition size does not match the number of vertices of the tree.";
  Ok (map (λ v, if v =? root t then value_at input v
                else if default false (bdata condition !! v)
                     then value_at input (parent v t)
                     else value_at input v)
          (seq 0 (num_vertices t))).

(** *** The bindings, from the source *)

(** [def_propagate_parallel] (lines 225-237): an omitted [condition] is
    the default array, recognised by its dimension. *)
Definition py_propagate_parallel (t : tree) (input : list Z)
    (condition : option bool_array) : result (list Z) :=
  let condition := default default_condition condition in
  if bdimension condition =? 0
  then propagate_parallel t input
  else propagate_parallel_if t input condition.

(** The strategy objects [hg::accumulator_min()], ... handed to the
    engine. *)
Inductive accumulator : Type :=
  | accumulator_min | accumulator_max | accumulator_mean
  | accumulator_counter | accumulator_sum | accumulator_prod
  | accumulator_first | accumulator_last.

#[global] Instance accumulator_eq_dec : EqDecision accumulator.
Proof. solve_decision. Defined.

(** The strategy that bears the name of a member of the enumeration. *)
Definition strategy_of (a : accumulators.t) : accumulator :=
  match a with
  | accumulators.min => accumulator_min
  | accumulators.max => accumulator_max
  | accumulators.mean => accumulator_mean
  | accumulators.counter => accumulator_counter
  | accumulators.sum => accumulator_sum
  | accumulators.prod => accumulator_prod
  | accumulators.first => accumulator_first
  | accumulators.last => accumulator_last
  end.

Section Bindings.

(** The value of each member of [hg::accumulators], and the engine
    entry points of [tree_accumulator.hpp], are taken as given; the
    selector is the integer the call receives. *)
Context (enum_value : accumulators.t → Z).
Context {value_array output_array functor : Type}.
Context (hg_accumulate_parallel :
           tree → value_array → accumulator → result output_array).
Context (hg_accumulate_sequential :
           tree → value_array → accumulator → result output_array).
Context (hg_accumulate_and_combine_sequential :
           tree → value_array → value_array → accumulator → functor →
           result output_array).

(** [def_accumulate_parallel] (lines 33-62). *)
Definition py_accumulate_parallel (t : tree) (input : value_array)
    (accumulator : Z) : result output_array :=
  if (accumulator =? enum_value accumulators.min)%Z then
    hg_accumulate_parallel t input accumulator_min
  else if (accumulator =? enum_value accumulators.max)%Z then
    hg_accumulate_parallel t input accumulator_max
  else if (accumulator =? enum_value accumulators.mean)%Z then
    hg_accumulate_parallel t input accumulator_mean
  else if (accumulator =? enum_value accumulators.counter)%Z then
    hg_accumulate_parallel t input accumulator_counter
  else if (accumulator =? enum_value accumulators.sum)%Z then
    hg_accumulate_parallel t input accumulator_sum
  else if (accumulator =? enum_value accumulators.prod)%Z then
    hg_accumulate_parallel t input accumulator_prod
  else if (accumulator =? enum_value accumulators.first)%Z then
    hg_accumulate_parallel t input accumulator_first
  else if (accumulator =? enum_value accumulators.last)%Z then
    hg_accumulate_parallel t input accumulator_last
  else Throw "Unknown accumulator.".

(** [def_accumulate_sequential] (lines 75-104). *)
Definition py_accumulate_sequential (t : tree) (vertex_data : value_array)
    (accumulator : Z) : result output_array :=
  if (accumulator =? enum_value accumulators.min)%Z then
    hg_accumulate_sequential t vertex_data accumulator_min
  else if (accumulator =? enum_value accumulators.max)%Z then
    hg_accumulate_sequential t vertex_data accumulator_max
  else if (accumulator =? enum_value accumulators.mean)%Z then
    hg_accumulate_sequential t vertex_data accumulator_mean
  else if (accumulator =? enum_value accumulators.counter)%Z then
    hg_accumulate_sequential t vertex_data accumulator_counter
  else if (accumulator =? enum_value accumulators.sum)%Z then
    hg_accumulate_sequential t vertex_data accumulator_sum
  else if (accumulator =? enum_value accumulators.prod)%Z then
    hg_accumulate_sequential t vertex_data accumulator_prod
  else if (accumulator =? enum_value accumulators.first)%Z then
    hg_accumulate_sequential t vertex_data accumulator_first
  else if (accumulator =? enum_value accumulators.last)%Z then
    hg_accumulate_sequential t vertex_data accumulator_last
  else Throw "Unknown accumulator.".

(** [def_accumulate_and_combine_sequential] (lines 147-193), for the
    functor [f] it was registered with. *)
Definition py_accumulate_and_combine_sequential (f : functor) (t : tree)
    (input vertex_data : value_array) (accumulator : Z)
    : result output_array :=
  if (accumulator =? enum_value accumulators.min)%Z then
    hg_accumulate_and_combine_sequential t input vertex_data accumulator_min f
  else if (accumulator =? enum_value accumulators.max)%Z then
    hg_accumulate_and_combine_sequential t input vertex_data accumulator_max f
  else if (accumulator =? enum_value accumulators.mean)%Z then
    hg_accumulate_and_combine_sequential t input vertex_data accumulator_mean f
  else if (accumulator =? enum_value accumulators.counter)%Z then
    hg_accumulate_and_combine_sequential t input vertex_data
      accumulator_counter f
  else if (accumulator =? enum_value accumulators.sum)%Z then
    hg_accumulate_and_combine_sequential t input vertex_data accumulator_sum f
  else if (accumulator =? enum_value accumulators.prod)%Z then
    hg_accumulate_and_combine_sequential t input vertex_data accumulator_prod f
  else if (accumulator =? enum_value accumulators.first)%Z then
    hg_accumulate_and_combine_sequential t input vertex_data accumulator_first f
  else if (accumulator =? enum_value accumulators.last)%Z then
    hg_accumulate_and_combine_sequential t input vertex_data accumulator_last f
  else Throw "Unknown accumulator.".

End Bindings.

(** An engine that only reports the strategy it is called with. *)
Definition report_strategy (t : tree) (input : list Z) (a : accumulator)
    : result accumulator := Ok a.
Definition report_strategy_combine (t : tree) (input vertex_data : list Z)
    (a : accumulator) (f : Z → Z → Z) : result accumulator := Ok a.

(** One assignment of values to the members, in the order
    [first, last, mean, min, max, counter, sum, prod]. *)
Definition enum_value_in_order (a : accumulators.t) : Z :=
  match a with
  | accumulators.first => 0
  | accumulators.last => 1
  | accumulators.mean => 2
  | accumulators.min => 3
  | accumulators.max => 4
  | accumulators.counter => 5
  | accumulators.sum => 6
  | accumulators.prod => 7
  end%Z.

(** The sum of a list of numbers, and the sum of [f] over the indices
    below [k] that satisfy [p]. *)
Definition sumZ (xs : list Z) : Z := foldr Z.add 0%Z xs.
Definition msum (p : nat → bool) (f : nat → Z) (k : nat) : Z :=
  sumZ (map f (List.filter p (seq 0 k))).

End Accumulator.

(** ** Lowest common ancestors ([python/higra/cpp/py_lca_fast.cpp]) *)

Module LCA.
Import Tree.

(** The path from [v] to the root: [v], its parent, and so on; [fuel]
    bounds its length. *)
Fixpoint ancestors_fuel (fuel : nat) (v : nat) (t : tree) : list nat :=
  match fuel with
  | 0 => []
  | S fuel =>
      v :: (if parent v t =? v then [] else ancestors_fuel fuel (parent v t) t)
  end.

(** The ancestors of [v], itself included; parents have larger indices,
    so the path has at most [num_vertices - v] vertices. *)
Definition ancestors (v : nat) (t : tree) : list nat :=
  ancestors_fuel (num_vertices t - v) v t.

Definition is_ancestor (a v : nat) (t : tree) : bool :=
  existsb (Nat.eqb a) (ancestors v t).

(** The number of vertices on the path from [v] to the root. *)
Definition depth (v : nat) (t : tree) : nat := length (ancestors v t).

Definition common_ancestors (v1 v2 : nat) (t : tree) : list nat :=
  List.filter (λ a, is_ancestor a v1 t && is_ancestor a v2 t)
              (seq 0 (num_vertices t)).

Definition deeper (t : tree) (best a : nat) : nat :=
  if depth best t <? depth a t then a else best.

Definition deepest (t : tree) (candidates : list nat) : nat :=
  foldl (deeper t) (root t) candidates.

(** Modelled from the spec: the class [lca_fast] of
    [higra/structure/lca_fast.hpp], outside the embedded files.  The
    structure is built once from a tree and
    "its only externally visible contract is the query operation":
    [lca(v1, v2)] "returns the deepest vertex that is an ancestor of both
    [v1] and [v2] (ancestor includes the vertex itself)", and "queries on
    indices outside [0, num_vertices) fail with an out-of-range error". *)
Record lca_fast : Type := LcaFast { lca_tree : tree }.

Definition lca (l : lca_fast) (v1 v2 : nat) : result nat :=
  let t := lca_tree l in
  _ ← hg_assert ((v1 <? num_vertices t) && (v2 <? num_vertices t))
        "vertex index out of range.";
  Ok (deepest t (common_ancestors v1 v2 t)).

(** The bindings [LCAFast(tree)] (line 20) and [LCAFast.lca(v1, v2)]
    (lines 24-28). *)
Definition py_init (t : tree) : lca_fast := LcaFast t.
Definition py_lca (l : lca_fast) (v1 v2 : nat) : result nat := lca l v1 v2.

End LCA.

(** ** Cut labelling with its memory accesses

    The same function, [include/higra/algo/cut.hpp] lines 31-66, with
    every access to the label array and to the weights recorded in the
    order in which the code performs it. *)

Module CutTrace.
Import Cut.

Inductive event : Type :=
  | Alloc (n : nat)              (* line 39: xt::empty<index_t>({n}) *)
  | Fill (x : Z)                 (* line 40: labels.fill(x) *)
  | Load (v : nat)               (* lines 44, 55: labels(v) read *)
  | Store (v : nat) (l : Z)      (* lines 46, 56: labels(v) = l *)
  | ReadWeight (i : nat).        (* line 52: edge_weights(i) read *)

(** A computation that records events and then returns, throws, or runs
    out of fuel. *)
Record traced (A : Type) : Type := Traced {
  events : list event;
  outcome : result A
}.
Arguments Traced {A} events outcome.
Arguments events {A} _.
Arguments outcome {A} _.

#[global] Instance traced_ret : MRet traced := λ A a, Traced [] (Ok a).

#[global] Instance traced_bind : MBind traced := λ A B k m,
  match outcome m with
  | Ok a => Traced (events m ++ events (k a)) (outcome (k a))
  | Throw msg => Traced (events m) (Throw msg)
  | OutOfFuel => Traced (events m) OutOfFuel
  end.

Definition tell (e : event) : traced unit := Traced [e] (Ok tt).

(** [hg_assert] touches neither the labels nor the weights. *)
Definition hg_assert_t (test : bool) (msg : string) : traced unit :=
  Traced [] (hg_assert test msg).

(** A [for] loop over the elements of [l]. *)
Fixpoint for_each {A S : Type} (body : S → A → traced S) (s : S) (l : list A)
    : traced S :=
  match l with
  | [] => mret s
  | x :: l => s ← body s x; for_each body s l
  end.

(** Lines 52-59. *)
Definition visit_edge_t (g : graph) (edge_weights : xarray) (cv : nat)
    (current_label : Z) (st : list Z * list nat) (edge_index : nat)
    : traced (list Z * list nat) :=
  let '(labels, stack) := st in
  _ ← tell (ReadWeight edge_index);
  if weight_is_zero edge_weights edge_index then
    match edge edge_index g with
    | Some e =>
        let n := other_vertex e cv in
        _ ← tell (Load n);
        if (label_at labels n =? invalid_index)%Z
        then _ ← tell (Store n current_label);
             mret (<[n := current_label]> labels, n :: stack)
        else mret (labels, stack)
    | None => mret (labels, stack)
    end
  else mret (labels, stack).

(** Line 51. *)
Definition visit_out_edges_t (g : graph) (edge_weights : xarray) (cv : nat)
    (current_label : Z) (st : list Z * list nat)
    : traced (list Z * list nat) :=
  for_each (visit_edge_t g edge_weights cv current_label) st
           (out_edge_index_iterator cv g).

(** Lines 48-61. *)
Fixpoint flood_t (fuel : nat) (g : graph) (edge_weights : xarray)
    (current_label : Z) (labels : list Z) (stack : list nat)
    : traced (list Z) :=
  match stack with
  | [] => mret labels
  | cv :: stack =>
      match fuel with
      | 0 => Traced [] OutOfFuel
      | S fuel =>
          st ← visit_out_edges_t g edge_weights cv current_label
                 (labels, stack);
          flood_t fuel g edge_weights current_label st.1 st.2
      end
  end.

(** Lines 43-63. *)
Fixpoint scan_t (g : graph) (edge_weights : xarray) (vs : list nat)
    (labels : list Z) (current_label : Z) : traced (list Z * Z) :=
  match vs with
  | [] => mret (labels, current_label)
  | v :: vs =>
      _ ← tell (Load v);
      if (label_at labels v =? invalid_index)%Z then
        let current_label := (current_label + 1)%Z in
        _ ← tell (Store v current_label);
        labels ← flood_t (num_vertices g) g edge_weights current_label
                   (<[v := current_label]> labels) [v];
        scan_t g edge_weights vs labels current_label
      else scan_t g edge_weights vs labels current_label
  end.

(** Lines 35-65. *)
Definition graph_cut_2_labelisation_t (g : graph) (edge_weights : xarray)
    : traced (list Z) :=
  _ ← hg_assert_t (dimension edge_weights =? 1) "Edge weights must be scalar.";
  _ ← hg_assert_t (num_edges g =? size edge_weights)
        "Edge weights size does not match graph number of edges.";
  _ ← tell (Alloc (num_vertices g));
  _ ← tell (Fill invalid_index);
  st ← scan_t g edge_weights (vertex_iterator g)
         (replicate (num_vertices g) invalid_index) 0%Z;
  mret st.1.

(** The outcome of an optional result of the fuelled loops. *)
Definition of_option {A : Type} (o : option A) : result A :=
  match o with Some a => Ok a | None => OutOfFuel end.

(** An event that allocates or writes the output. *)
Definition touches_output (e : event) : bool :=
  match e with
  | Alloc _ | Fill _ | Store _ _ => true
  | Load _ | ReadWeight _ => false
  end.

(** An access that stays within the label array of [g] and the weight
    array [w]. *)
Definition in_bounds (g : graph) (w : xarray) (e : event) : Prop :=
  match e with
  | Alloc n => n = num_vertices g
  | Fill _ => True
  | Load v | Store v _ => v < num_vertices g
  | ReadWeight i => i < size w
  end.

End CutTrace.

(** ** Further vocabulary for the cut labelling *)

Module CutMore.
Import Cut.

(** [labels'] has the length of [labels] and keeps its valid labels. *)
Definition keeps (labels labels' : list Z) : Prop :=
  length labels' = length labels ∧
  ∀ v l, labels !! v = Some l → l ≠ invalid_index → labels' !! v = Some l.

(** The labelling in which vertex [v] carries the label [v + 1]. *)
Definition identity_labels (n : nat) : list Z :=
  map (λ v, Z.of_nat (S v)) (seq 0 n).

(** The number of non-zero entries of a list of weights. *)
Definition count_non_zero (ws : list Z) : nat :=
  length (List.filter (λ x, negb (x =? 0)%Z) ws).

(** On a path, vertex [v] lies behind as many cuts as there are
    non-zero weights among the first [v] edges. *)
Definition path_labels (n : nat) (ws : list Z) : list Z :=
  map (λ v, (1 + Z.of_nat (count_non_zero (take v ws)))%Z) (seq 0 n).

(** Modelled from the spec: [add_edge] of [graph.hpp], outside the
    embedded files; as the Pink graph test uses it, the new edge takes
    the next edge index. *)
Definition add_edge (a b : nat) (g : graph) : graph :=
  Graph (num_vertices g) (edges g ++ [(a, b)]).

(** The two uncut edges of [square], listed in the other order and with
    their endpoints exchanged. *)
Definition two_edges : graph := Graph 4 [(3, 2); (1, 0)].
Definition two_edges_uncut : xarray := array_1d [0; 0]%Z.

(** Weights on [square]: one cut fewer than [square_cut], every edge
    cut, and a single cut that leaves the square connected. *)
Definition square_one_cut : xarray := array_1d [0; 0; 0; 2]%Z.
Definition square_all_cut : xarray := array_1d [1; 5; 3; 2]%Z.

End CutMore.

(** * Properties of the cut labelling *)

Module CutFacts.
Import Cut.

Section Flood.
Context (g : graph) (w : xarray).
Hypothesis wf : wf_graph g.

Lemma weight_is_zero_true i :
  weight_is_zero w i = true ↔ data w !! i = Some 0%Z.
Proof.
  unfold weight_is_zero. destruct (data w !! i) as [x|]; [|done].
  destruct (Z.eqb_spec x 0); split; congruence.
Qed.

Lemma adjacent_sym u v : adjacent g w u v → adjacent g w v u.
Proof.
  intros (i & s & t & He & Hw & Huv).
  exists i, s, t. repeat split; try done. tauto.
Qed.

Lemma adjacent_in_range u v :
  adjacent g w u v → u < num_vertices g ∧ v < num_vertices g.
Proof.
  intros (i & s & t & He & _ & Huv).
  destruct (wf _ _ _ He). lia.
Qed.

Lemma connected_sym u v : connected g w u v → connected g w v u.
Proof.
  induction 1 as [|x y z Hxy _ IH]; [apply rtc_refl|].
  eapply rtc_trans; [exact IH|].
  apply rtc_once, adjacent_sym, Hxy.
Qed.

(** Every zero-weight edge at [cv] is met by the loop over its
    out-edges, and leads to the neighbour. *)
Lemma adjacent_out_edge cv y :
  adjacent g w cv y →
  ∃ i e, In i (out_edge_index_iterator cv g) ∧ weight_is_zero w i = true ∧
         edge i g = Some e ∧ other_vertex e cv = y.
Proof.
  intros (i & s & t & He & Hw & Huv).
  apply weight_is_zero_true in Hw.
  exists i, (s, t). repeat split; try done.
  - apply filter_In. split.
    + apply in_seq. apply lookup_lt_Some in He. unfold num_edges. lia.
    + unfold edge. rewrite He. unfold incident. simpl.
      destruct Huv as [[-> _]|[-> _]].
      * rewrite Nat.eqb_refl. done.
      * rewrite Nat.eqb_refl. apply orb_true_r.
  - unfold other_vertex. simpl.
    destruct Huv as [[-> ->]|[-> ->]].
    + rewrite Nat.eqb_refl. done.
    + destruct (Nat.eqb_spec s t); congruence.
Qed.

Lemma out_edge_adjacent cv i e :
  In i (out_edge_index_iterator cv g) → weight_is_zero w i = true →
  edge i g = Some e → adjacent g w cv (other_vertex e cv).
Proof.
  intros Hin Hw He. apply filter_In in Hin as [_ Hinc].
  apply weight_is_zero_true in Hw.
  rewrite He in Hinc. destruct e as [s t]. exists i, s, t.
  repeat split; try done.
  unfold incident, other_vertex in *. simpl in *.
  destruct (Nat.eqb_spec s cv) as [Hs|Hs]; [by left|].
  destruct (Nat.eqb_spec t cv) as [Ht|Ht]; [by right|done].
Qed.

Lemma count_invalid_le labels : count_invalid labels ≤ length labels.
Proof. apply filter_length_le. Qed.

Lemma count_invalid_app l1 l2 :
  count_invalid (l1 ++ l2) = count_invalid l1 + count_invalid l2.
Proof. unfold count_invalid. rewrite List.filter_app, List.length_app. done. Qed.

Lemma count_invalid_cons x l :
  count_invalid (x :: l) =
  (if (x =? invalid_index)%Z then 1 else 0) + count_invalid l.
Proof. unfold count_invalid. simpl. by destruct (x =? invalid_index)%Z. Qed.

Lemma count_invalid_insert labels n c :
  labels !! n = Some invalid_index → c ≠ invalid_index →
  S (count_invalid (<[n := c]> labels)) = count_invalid labels.
Proof.
  intros Hn Hc.
  rewrite <- (take_drop_middle labels n invalid_index Hn) at 2.
  rewrite insert_take_drop by (by eapply lookup_lt_Some).
  rewrite !count_invalid_app, !count_invalid_cons, Z.eqb_refl.
  destruct (Z.eqb_spec c invalid_index); [done|lia].
Qed.

(** *** One flood fill: the component of [r] receives label [c] *)

Context (labels0 : list Z) (c : Z) (r : nat).
Hypothesis c_valid : c ≠ invalid_index.
Hypothesis c_fresh : ∀ v, labels0 !! v ≠ Some c.
Hypothesis closed0 : ∀ u v l,
  labelled labels0 u l → adjacent g w u v → labels0 !! v = Some l.

Lemma flood_inv_connected labels pend x :
  flood_inv g w labels0 c r labels pend → labels !! x = Some c →
  connected g w r x.
Proof.
  intros Hinv Hx. destruct (fi_frame Hinv x) as [Heq|(_ & _ & H)].
  - rewrite Hx in Heq. symmetry in Heq. by apply c_fresh in Heq.
  - exact H.
Qed.

Lemma visit_post_skip cv i labels stack :
  flood_inv g w labels0 c r labels (cv :: stack) →
  (∀ e, weight_is_zero w i = true → edge i g = Some e →
        ∃ l, labelled labels (other_vertex e cv) l) →
  visit_post g w labels0 c r cv i labels stack labels stack.
Proof.
  intros Hinv Hseen. split; [done|split; [|split; [done|done]]].
  by intros x l [? _].
Qed.

Lemma visit_post_push cv i e labels stack :
  flood_inv g w labels0 c r labels (cv :: stack) →
  adjacent g w cv (other_vertex e cv) →
  edge i g = Some e →
  labels !! other_vertex e cv = Some invalid_index →
  visit_post g w labels0 c r cv i labels stack
    (<[other_vertex e cv := c]> labels) (other_vertex e cv :: stack).
Proof.
  set (n := other_vertex e cv). intros Hinv Hadj He Hn.
  assert (Hcv : labels !! cv = Some c)
    by (apply (fi_pend Hinv), elem_of_cons; by left).
  assert (Hother : ∀ x, x ≠ n → <[n:=c]> labels !! x = labels !! x)
    by (intros; by apply list_lookup_insert_ne).
  assert (Hself : <[n:=c]> labels !! n = Some c)
    by (apply list_lookup_insert_eq; by eapply lookup_lt_Some).
  assert (Hkeep : ∀ x, labels !! x = Some c → <[n:=c]> labels !! x = Some c).
  { intros x Hx. destruct (decide (x = n)) as [->|?]; [done|].
    by rewrite Hother. }
  split; [split|split; [|split]].
  - rewrite length_insert. apply (fi_length Hinv).
  - apply Hkeep, (fi_root Hinv).
  - intros x. destruct (decide (x = n)) as [->|Hx].
    + right. split; [|split; [done|]].
      * destruct (fi_frame Hinv n) as [Heq|(_ & Hc & _)];
          congruence.
      * eapply rtc_r; [|exact Hadj]. eapply flood_inv_connected; eauto.
    + rewrite Hother by done. apply (fi_frame Hinv).
  - intros x Hx. destruct (decide (x = n)) as [->|Hxn]; [done|].
    apply Hkeep, (fi_pend Hinv).
    rewrite !elem_of_cons in Hx. rewrite elem_of_cons. tauto.
  - intros x Hx. rewrite !elem_of_cons.
    destruct (decide (x = n)) as [->|Hxn]; [tauto|].
    rewrite Hother in Hx by done.
    destruct (fi_closed Hinv x Hx) as [Hp|Hcl].
    + rewrite elem_of_cons in Hp. tauto.
    + right. intros y Hy. apply Hkeep, Hcl, Hy.
  - intros x l [Hx Hl]. rewrite Hother; [done|].
    intros ->. congruence.
  - rewrite <- (count_invalid_insert labels n c Hn c_valid). simpl. lia.
  - intros e' _ He'. assert (e' = e) as -> by congruence.
    exists c. by split.
Qed.

Lemma visit_edge_inv cv labels stack i :
  flood_inv g w labels0 c r labels (cv :: stack) →
  In i (out_edge_index_iterator cv g) →
  ∀ labels' stack', visit_edge g w cv c (labels, stack) i = (labels', stack') →
  visit_post g w labels0 c r cv i labels stack labels' stack'.
Proof.
  intros Hinv Hin labels' stack' Hstep. unfold visit_edge in Hstep.
  destruct (weight_is_zero w i) eqn:Hw;
    [|simplify_eq; apply visit_post_skip; [done|intros; congruence]].
  destruct (edge i g) as [e|] eqn:He;
    [|simplify_eq; apply visit_post_skip; [done|intros; congruence]].
  pose proof (out_edge_adjacent _ _ _ Hin Hw He) as Hadj.
  destruct (adjacent_in_range _ _ Hadj) as [_ Hn].
  rewrite <- (fi_length Hinv) in Hn.
  destruct (lookup_lt_is_Some_2 _ _ Hn) as [ln Hln].
  unfold label_at in Hstep. rewrite Hln in Hstep. simpl in Hstep.
  destruct (Z.eqb_spec ln invalid_index) as [Heq|Hne]; simplify_eq.
  - by apply visit_post_push.
  - apply visit_post_skip; [done|].
    intros e' _ He'. exists ln. split; [congruence|done].
Qed.

(** The loop over a list [es] of out-edges of [cv]. *)
Lemma visit_edges_inv cv es : ∀ labels stack labels' stack',
  (∀ i, In i es → In i (out_edge_index_iterator cv g)) →
  flood_inv g w labels0 c r labels (cv :: stack) →
  foldl (visit_edge g w cv c) (labels, stack) es = (labels', stack') →
  flood_inv g w labels0 c r labels' (cv :: stack') ∧
  (∀ x l, labelled labels x l → labels' !! x = Some l) ∧
  count_invalid labels' + length stack' = count_invalid labels + length stack ∧
  (∀ i e, In i es → weight_is_zero w i = true → edge i g = Some e →
          ∃ l, labelled labels' (other_vertex e cv) l).
Proof.
  induction es as [|i es IH]; intros labels stack labels' stack' Hes Hinv Hrun.
  - simpl in Hrun. simplify_eq. split; [done|split; [|split; [done|]]].
    + by intros x l [? _].
    + by intros i e [].
  - cbn [foldl] in Hrun.
    destruct (visit_edge g w cv c (labels, stack) i) as [labels1 stack1] eqn:H1.
    destruct (visit_edge_inv _ _ _ _ Hinv (Hes i (or_introl eq_refl)) _ _ H1)
      as (Hinv1 & Hmono1 & Hcount1 & Hseen1).
    destruct (IH _ _ _ _ (λ j Hj, Hes j (or_intror Hj)) Hinv1 Hrun)
      as (Hinv' & Hmono' & Hcount' & Hseen').
    assert (Hmono : ∀ x l, labelled labels x l → labels' !! x = Some l).
    { intros x l Hx. apply Hmono'. split; [by apply Hmono1|apply Hx]. }
    split; [done|split; [done|split; [lia|]]].
    intros j e [<-|Hj] Hw He.
    + destruct (Hseen1 e Hw He) as [l Hl]. exists l.
      split; [by apply Hmono'|apply Hl].
    + by eapply Hseen'.
Qed.

(** One iteration of the [while] loop: [cv] is popped and its out-edges
    are visited; afterwards every zero-weight neighbour of [cv] carries
    the label [c]. *)
Lemma visit_out_edges_inv cv labels stack labels' stack' :
  flood_inv g w labels0 c r labels (cv :: stack) →
  visit_out_edges g w cv c (labels, stack) = (labels', stack') →
  flood_inv g w labels0 c r labels' stack' ∧
  count_invalid labels' + length stack' = count_invalid labels + length stack.
Proof.
  intros Hinv Hrun. unfold visit_out_edges in Hrun.
  destruct (visit_edges_inv _ _ _ _ _ _ (λ i Hi, Hi) Hinv Hrun)
    as (Hinv' & _ & Hcount & Hseen).
  split; [|done].
  assert (Hcv : labels' !! cv = Some c)
    by (apply (fi_pend Hinv'), elem_of_cons; by left).
  assert (Hcv0 : labels0 !! cv = Some invalid_index).
  { destruct (fi_frame Hinv' cv) as [Heq|(H0 & _)]; [|done].
    rewrite Hcv in Heq. symmetry in Heq. by apply c_fresh in Heq. }
  assert (Hclosed : ∀ y, adjacent g w cv y → labels' !! y = Some c).
  { intros y Hy.
    destruct (adjacent_out_edge _ _ Hy) as (i & e & Hi & Hw & He & <-).
    destruct (Hseen i e Hi Hw He) as (l & Hl & Hvalid).
    destruct (fi_frame Hinv' (other_vertex e cv))
      as [Heq|(_ & Hc & _)]; [|done].
    rewrite Hl in Heq. symmetry in Heq.
    assert (labels0 !! cv = Some l)
      by (eapply closed0; [by split|by apply adjacent_sym]).
    congruence. }
  split.
  - apply (fi_length Hinv').
  - apply (fi_root Hinv').
  - apply (fi_frame Hinv').
  - intros x Hx. apply (fi_pend Hinv'), elem_of_cons. by right.
  - intros x Hx.
    destruct (fi_closed Hinv' x Hx) as [Hp|Hcl]; [|by right].
    apply elem_of_cons in Hp as [->|Hp]; [by right|by left].
Qed.

(** The [while] loop ends within [fuel] iterations once [fuel] covers the
    unlabelled vertices and the stack, and leaves nothing pending. *)
Lemma flood_total fuel : ∀ labels stack,
  flood_inv g w labels0 c r labels stack →
  count_invalid labels + length stack ≤ fuel →
  ∃ labels', flood fuel g w c labels stack = Some labels' ∧
             flood_inv g w labels0 c r labels' [].
Proof.
  induction fuel as [|fuel IH]; intros labels [|cv stack] Hinv Hfuel;
    cbn [flood length] in *; try (by eexists); try lia.
  destruct (visit_out_edges g w cv c (labels, stack)) as [labels1 stack1] eqn:H1.
  destruct (visit_out_edges_inv _ _ _ _ _ Hinv H1) as [Hinv1 Hcount1].
  apply IH; [done|lia].
Qed.

End Flood.
(** *** The outer scan *)

Section Scan.
Context (g : graph) (w : xarray).
Hypothesis wf : wf_graph g.

Lemma scan_inv_init :
  scan_inv g w 0 (replicate (num_vertices g) invalid_index) 0.
Proof.
  assert (Hall : ∀ v l, ¬ labelled (replicate (num_vertices g) invalid_index) v l).
  { intros v l [Hv Hl]. apply lookup_replicate in Hv as [-> _]. done. }
  split.
  - apply length_replicate.
  - lia.
  - intros v l Hv. by apply Hall in Hv.
  - intros v Hv. lia.
  - intros u v l Hu. by apply Hall in Hu.
  - intros u v l Hu. by apply Hall in Hu.
  - intros l Hl. lia.
  - intros v l Hv Hl. apply lookup_replicate in Hv as [-> _].
    unfold invalid_index in Hl. lia.
Qed.

Lemma scan_inv_skip i labels k l :
  scan_inv g w i labels k → labelled labels i l →
  scan_inv g w (S i) labels k.
Proof.
  intros [] Hi. split; try done.
  - lia.
  - intros v Hv Hn. destruct (decide (v = i)) as [->|?]; [by exists l|].
    apply si_done0; lia.
  - intros l' Hl'. destruct (si_used0 l' Hl') as (v & Hv & Hlv).
    exists v. split; [lia|done].
Qed.

Lemma scan_inv_flood i labels0 k :
  scan_inv g w i labels0 k → i < num_vertices g →
  labels0 !! i = Some invalid_index →
  ∃ labels, flood (num_vertices g) g w (k + 1) (<[i := (k + 1)%Z]> labels0) [i]
            = Some labels ∧
            scan_inv g w (S i) labels (k + 1).
Proof.
  intros Hinv Hi Hi0. set (c := (k + 1)%Z).
  pose proof (si_counter Hinv) as Hk.
  assert (c_valid : c ≠ invalid_index) by (unfold invalid_index, c; lia).
  assert (c_fresh : ∀ v, labels0 !! v ≠ Some c).
  { intros v Hv. assert (labelled labels0 v c) as Hl by (by split).
    apply (si_range Hinv) in Hl. unfold c in Hl. lia. }
  pose proof (si_closed Hinv) as closed0.
  pose proof (si_length Hinv) as Hlen.
  assert (Hstart : flood_inv g w labels0 c i (<[i:=c]> labels0) [i]).
  { split.
    - by rewrite length_insert.
    - apply list_lookup_insert_eq. lia.
    - intros x. destruct (decide (x = i)) as [->|Hx].
      + right. split; [done|split; [|apply rtc_refl]].
        apply list_lookup_insert_eq. lia.
      + left. by apply list_lookup_insert_ne.
    - intros x Hx. apply list_elem_of_singleton in Hx as ->.
      apply list_lookup_insert_eq. lia.
    - intros x Hx. left. destruct (decide (x = i)) as [->|Hne].
      + by apply list_elem_of_singleton.
      + rewrite list_lookup_insert_ne in Hx by done. by apply c_fresh in Hx. }
  destruct (flood_total g w wf labels0 c i c_valid c_fresh closed0
              (num_vertices g) _ _ Hstart) as (labels & Hrun & Hend).
  { pose proof (count_invalid_insert labels0 i c Hi0 c_valid).
    pose proof (count_invalid_le labels0). simpl. lia. }
  exists labels. split; [exact Hrun|].
  pose proof (fi_frame Hend) as Hframe.
  assert (Hkeep : ∀ x l, labelled labels0 x l → labels !! x = Some l).
  { intros x l [Hx Hl]. destruct (Hframe x) as [->|(H0 & _)]; congruence. }
  assert (Hnew : ∀ x, labels !! x = Some c →
                      labels0 !! x = Some invalid_index ∧ connected g w i x).
  { intros x Hx. destruct (Hframe x) as [Heq|(H0 & _ & Hc)]; [|done].
    rewrite Hx in Heq. symmetry in Heq. by apply c_fresh in Heq. }
  assert (Hold : ∀ x l, labelled labels x l → l ≠ c → labelled labels0 x l).
  { intros x l [Hx Hl] Hlc. destruct (Hframe x) as [Heq|(_ & Hc & _)].
    - split; congruence.
    - congruence. }
  split.
  - apply (fi_length Hend).
  - unfold c. lia.
  - intros v l Hv. destruct (decide (l = c)) as [->|Hlc]; [unfold c; lia|].
    apply Hold in Hv; [|done].
    apply (si_range Hinv) in Hv. unfold c. lia.
  - intros v Hv Hn. destruct (decide (v = i)) as [->|Hvi].
    + exists c. split; [apply (fi_root Hend)|done].
    + destruct (si_done Hinv v) as (l & Hl); [lia|done|].
      exists l. split; [by apply Hkeep|apply Hl].
  - intros u v l Hu Huv. destruct (decide (l = c)) as [->|Hlc].
    + destruct (fi_closed Hend u (proj1 Hu)) as [Hp|Hcl].
      * by apply elem_of_nil in Hp.
      * by apply Hcl.
    + apply Hold in Hu; [|done]. apply Hkeep. split; [|apply Hu].
      eapply closed0; eauto.
  - intros u v l Hu Hv. destruct (decide (l = c)) as [->|Hlc].
    + apply Hnew in Hv as [_ Hv]. destruct Hu as [Hu _].
      apply Hnew in Hu as [_ Hu].
      eapply rtc_trans; [|exact Hv]. by apply connected_sym.
    + assert (labelled labels v l) as Hv' by (split; [done|apply Hu]).
      apply Hold in Hu; [|done]. apply Hold in Hv'; [|done].
      eapply (si_conn Hinv); [exact Hu|apply Hv'].
  - intros l Hl. destruct (decide (l = c)) as [->|Hlc].
    + exists i. split; [lia|apply (fi_root Hend)].
    + destruct (si_used Hinv l) as (v & Hv & Hlv); [unfold c in *; lia|].
      exists v. split; [lia|]. apply Hkeep. split; [done|].
      unfold invalid_index. lia.
  - intros v l Hv Hl. destruct (decide (l = c)) as [->|Hlc].
    + apply Hnew in Hv as [Hv0 _].
      assert (i ≤ v).
      { destruct (decide (v < i)) as [Hlt|]; [|lia].
        destruct (si_done Hinv v Hlt) as (l' & Hl' & Hne);
          [lia|congruence]. }
      destruct (si_used Hinv (c - 1)%Z) as (u & Hu & Hlu);
        [unfold c in *; lia|].
      exists u. split; [lia|]. apply Hkeep. split; [done|].
      unfold invalid_index. lia.
    + assert (labelled labels0 v l) as [Hv0 _].
      { apply Hold; [|done]. split; [done|unfold invalid_index; lia]. }
      destruct (si_growth Hinv v l Hv0 Hl) as (u & Hu & Hlu).
      exists u. split; [done|]. apply Hkeep. split; [done|].
      unfold invalid_index. lia.
Qed.

(** The scan of the vertices [i, i+1, ..., i+m-1] runs to its end. *)
Lemma scan_total m : ∀ i labels k,
  i + m = num_vertices g → scan_inv g w i labels k →
  ∃ labels' k', scan g w (seq i m) labels k = Some (labels', k') ∧
                scan_inv g w (num_vertices g) labels' k'.
Proof.
  induction m as [|m IH]; intros i labels k Him Hinv.
  - exists labels, k. split; [done|]. by replace (num_vertices g) with i by lia.
  - cbn [seq scan].
    assert (Hi : i < length labels) by (rewrite (si_length Hinv); lia).
    destruct (lookup_lt_is_Some_2 _ _ Hi) as [l Hl].
    unfold label_at. rewrite Hl. simpl.
    destruct (Z.eqb_spec l invalid_index) as [Heq|Hne].
    + subst l.
      destruct (scan_inv_flood i labels k Hinv) as (labels1 & -> & Hinv1);
        [lia|done|].
      apply IH; [lia|done].
    + apply IH; [lia|]. eapply scan_inv_skip; [done|by split].
Qed.

Lemma label_components_total :
  ∃ labels k, label_components g w = Some (labels, k) ∧
              scan_inv g w (num_vertices g) labels k.
Proof. apply (scan_total _ 0); [done|apply scan_inv_init]. Qed.

End Scan.

(** *** The labelling as a whole *)

Lemma labelisation_total g w :
  wf_graph g → dimension w = 1 → size w = num_edges g →
  ∃ labels k, label_components g w = Some (labels, k) ∧
              graph_cut_2_labelisation g w = Ok labels ∧
              scan_inv g w (num_vertices g) labels k.
Proof.
  intros wf Hdim Hsize.
  destruct (label_components_total g w wf) as (labels & k & Hrun & Hinv).
  exists labels, k. split; [done|split; [|done]].
  unfold graph_cut_2_labelisation. rewrite Hdim, Hsize, Nat.eqb_refl. simpl.
  unfold mbind, result_bind. by rewrite Hrun.
Qed.

(** The label counter stays within the number of vertices. *)
Lemma label_counter_bounded g w :
  wf_graph g →
  ∃ labels k, label_components g w = Some (labels, k) ∧
              (0 ≤ k ≤ Z.of_nat (num_vertices g))%Z.
Proof.
  intros wf.
  destruct (label_components_total g w wf) as (labels & k & Hrun & Hinv).
  exists labels, k. split; [done|apply (si_counter Hinv)].
Qed.

Example square_labels :
  graph_cut_2_labelisation square square_cut = Ok [1; 1; 2; 2]%Z.
Proof. reflexivity. Qed.

Lemma scan_inv_same_label g w labels k u v :
  wf_graph g → scan_inv g w (num_vertices g) labels k →
  u < num_vertices g → v < num_vertices g →
  (labels !! u = labels !! v ↔ connected g w u v).
Proof.
  intros wf Hinv Hu Hv.
  destruct (si_done Hinv u Hu Hu) as (lu & Hlu).
  destruct (si_done Hinv v Hv Hv) as (lv & Hlv).
  split.
  - intros Heq. eapply (si_conn Hinv); [exact Hlu|].
    rewrite <- Heq. apply Hlu.
  - intros Hconn. rewrite (proj1 Hlu). symmetry. clear Hv lv Hlv. revert v Hconn.
    apply (rtc_ind_r (λ z, labels !! z = Some lu)); [apply Hlu|].
    intros y z _ Hyz IH.
    eapply (si_closed Hinv); [|exact Hyz].
    split; [exact IH|apply Hlu].
Qed.

(** A label [l + d] is preceded by an occurrence of the label [l]. *)
Lemma scan_inv_earlier g w i labels k d : ∀ v l,
  scan_inv g w i labels k → (1 ≤ l)%Z →
  labels !! v = Some (l + Z.of_nat (S d))%Z →
  ∃ u, u < v ∧ labels !! u = Some l.
Proof.
  induction d as [|d IH]; intros v l Hinv Hl Hv.
  - destruct (si_growth Hinv v _ Hv) as (u & Hu & Hlu); [lia|].
    exists u. split; [done|]. rewrite Hlu. f_equal. lia.
  - destruct (si_growth Hinv v _ Hv) as (u & Hu & Hlu); [lia|].
    destruct (IH u l Hinv Hl) as (x & Hx & Hlx).
    { rewrite Hlu. f_equal. lia. }
    exists x. split; [lia|done].
Qed.

Lemma wf_graphb_sound g : wf_graphb g = true → wf_graph g.
Proof.
  unfold wf_graphb. rewrite forallb_forall. intros Hall i s t Hi.
  specialize (Hall (s, t)). simpl in Hall.
  rewrite andb_true_iff, !Nat.ltb_lt in Hall. apply Hall.
  apply list_elem_of_In, list_elem_of_lookup. by exists i.
Qed.

(** C1.  On a well-formed graph and a one-dimensional weight array with
    one entry per edge, [graph_cut_2_labelisation] returns a label array
    indexed by the vertices in which two vertices carry the same label
    exactly when a path of zero-weight edges joins them. *)
Theorem labelisation_same_label_iff_connected g w :
  wf_graph g → dimension w = 1 → size w = num_edges g →
  ∃ labels, graph_cut_2_labelisation g w = Ok labels ∧
            length labels = num_vertices g ∧
            ∀ u v, u < num_vertices g → v < num_vertices g →
                   (labels !! u = labels !! v ↔ connected g w u v).
Proof.
  intros wf Hdim Hsize.
  destruct (labelisation_total g w wf Hdim Hsize) as (labels & k & _ & Hrun & Hinv).
  exists labels. split; [done|split; [apply (si_length Hinv)|]].
  intros u v. by apply scan_inv_same_label with k.
Qed.

Lemma labelisation_same_label_iff_connected_square :
  ∃ labels, graph_cut_2_labelisation square square_cut = Ok labels ∧
            length labels = num_vertices square ∧
            ∀ u v, u < num_vertices square → v < num_vertices square →
                   (labels !! u = labels !! v ↔ connected square square_cut u v).
Proof.
  apply (labelisation_same_label_iff_connected square square_cut);
    [apply wf_graphb_sound; reflexivity | reflexivity | reflexivity].
Defined.

(** C5.  The labels are [1, 2, ..., k], each of them used, one per
    connected component of the uncut graph, and handed out in the order
    in which the scan of the vertices by increasing index discovers the
    components: a label [l ≥ 2] only occurs after the label [l - 1] has
    occurred, and of two components the one discovered first has the
    smaller label. *)
Theorem labelisation_labels_in_discovery_order g w :
  wf_graph g → dimension w = 1 → size w = num_edges g →
  ∃ labels k,
    graph_cut_2_labelisation g w = Ok labels ∧
    label_components g w = Some (labels, k) ∧
    (∀ v, v < num_vertices g → ∃ l, labels !! v = Some l ∧ (1 ≤ l ≤ k)%Z) ∧
    (∀ l, (1 ≤ l ≤ k)%Z → ∃ v, labels !! v = Some l) ∧
    (∀ u v, u < num_vertices g → v < num_vertices g →
            (labels !! u = labels !! v ↔ connected g w u v)) ∧
    (∀ v l, labels !! v = Some l → (2 ≤ l)%Z →
            ∃ u, u < v ∧ labels !! u = Some (l - 1)%Z) ∧
    (∀ u v lu lv, labels !! u = Some lu → labels !! v = Some lv →
                  discovers g w u → discovers g w v → u < v → (lu < lv)%Z).
Proof.
  intros wf Hdim Hsize.
  destruct (labelisation_total g w wf Hdim Hsize) as (labels & k & Hk & Hrun & Hinv).
  assert (Hsame := λ u v, scan_inv_same_label g w labels k u v wf Hinv).
  assert (Hrange : ∀ v l, labels !! v = Some l → (1 ≤ l ≤ k)%Z).
  { intros v l Hv. pose proof (lookup_lt_Some _ _ _ Hv) as Hlt.
    rewrite (si_length Hinv) in Hlt.
    destruct (si_done Hinv v Hlt Hlt) as (l' & Hl').
    apply (si_range Hinv v). destruct Hl'. split; congruence. }
  exists labels, k. repeat split; try done.
  - intros v Hv. destruct (si_done Hinv v Hv Hv) as (l & Hl).
    exists l. split; [apply Hl|]. by apply (si_range Hinv v).
  - intros l Hl. destruct (si_used Hinv l Hl) as (v & _ & Hv).
    by exists v.
  - by apply Hsame.
  - by apply Hsame.
  - apply (si_growth Hinv).
  - intros u v lu lv Hu Hv Hdu Hdv Huv.
    pose proof (lookup_lt_Some _ _ _ Hu) as Hun.
    pose proof (lookup_lt_Some _ _ _ Hv) as Hvn.
    rewrite (si_length Hinv) in Hun, Hvn.
    destruct (Z.lt_trichotomy lu lv) as [Hlt|[Heq|Hgt]]; [done| |].
    + subst lv. destruct (Hdv u Huv). apply Hsame; congruence.
    + destruct (scan_inv_earlier g w _ labels k (Z.to_nat (lu - lv) - 1) u lv Hinv)
        as (x & Hx & Hlx).
      * by apply (Hrange v).
      * rewrite Hu. f_equal. lia.
      * destruct (Hdv x); [lia|]. apply Hsame; [lia|lia|congruence].
Qed.

Lemma labelisation_labels_in_discovery_order_square :
  ∃ labels k,
    graph_cut_2_labelisation square square_cut = Ok labels ∧
    label_components square square_cut = Some (labels, k) ∧
    (∀ v, v < num_vertices square → ∃ l, labels !! v = Some l ∧ (1 ≤ l ≤ k)%Z) ∧
    (∀ l, (1 ≤ l ≤ k)%Z → ∃ v, labels !! v = Some l) ∧
    (∀ u v, u < num_vertices square → v < num_vertices square →
            (labels !! u = labels !! v ↔ connected square square_cut u v)) ∧
    (∀ v l, labels !! v = Some l → (2 ≤ l)%Z →
            ∃ u, u < v ∧ labels !! u = Some (l - 1)%Z) ∧
    (∀ u v lu lv, labels !! u = Some lu → labels !! v = Some lv →
                  discovers square square_cut u → discovers square square_cut v →
                  u < v → (lu < lv)%Z).
Proof.
  apply (labelisation_labels_in_discovery_order square square_cut);
    [apply wf_graphb_sound; reflexivity | reflexivity | reflexivity].
Defined.

(** C10.  When the preconditions hold, the call returns, every vertex is
    labelled: no entry of the result is [invalid_index], and every entry
    lies between 1 and the final value of the label counter. *)
Theorem labelisation_labels_every_vertex g w :
  wf_graph g → dimension w = 1 → size w = num_edges g →
  ∃ labels k,
    graph_cut_2_labelisation g w = Ok labels ∧
    label_components g w = Some (labels, k) ∧
    length labels = num_vertices g ∧
    ∀ v, v < num_vertices g →
         ∃ l, labels !! v = Some l ∧ l ≠ invalid_index ∧ (1 ≤ l ≤ k)%Z.
Proof.
  intros wf Hdim Hsize.
  destruct (labelisation_total g w wf Hdim Hsize) as (labels & k & Hk & Hrun & Hinv).
  exists labels, k. split; [done|split; [done|split]].
  - apply (si_length Hinv).
  - intros v Hv. destruct (si_done Hinv v Hv Hv) as (l & Hl).
    exists l. split; [apply Hl|split; [apply Hl|]].
    by apply (si_range Hinv v).
Qed.

Lemma labelisation_labels_every_vertex_square :
  ∃ labels k,
    graph_cut_2_labelisation square square_cut = Ok labels ∧
    label_components square square_cut = Some (labels, k) ∧
    length labels = num_vertices square ∧
    ∀ v, v < num_vertices square →
         ∃ l, labels !! v = Some l ∧ l ≠ invalid_index ∧ (1 ≤ l ≤ k)%Z.
Proof.
  apply (labelisation_labels_every_vertex square square_cut);
    [apply wf_graphb_sound; reflexivity | reflexivity | reflexivity].
Defined.

(** *** Dependence on the weights *)

Section ZeroPattern.
Context (g : graph) (w1 w2 : xarray).
Hypothesis same_zeros :
  ∀ i, i < num_edges g → (data w1 !! i = Some 0%Z ↔ data w2 !! i = Some 0%Z).

Lemma weight_is_zero_ext i :
  i < num_edges g → weight_is_zero w1 i = weight_is_zero w2 i.
Proof.
  intros Hi. apply eq_true_iff_eq. rewrite !weight_is_zero_true.
  by apply same_zeros.
Qed.

Lemma visit_edge_ext cv c st i :
  visit_edge g w1 cv c st i = visit_edge g w2 cv c st i.
Proof.
  destruct st as [labels stack]. unfold visit_edge.
  destruct (edge i g) as [e|] eqn:He.
  - rewrite weight_is_zero_ext; [done|].
    by apply lookup_lt_Some in He.
  - by destruct (weight_is_zero w1 i), (weight_is_zero w2 i).
Qed.

Lemma visit_out_edges_ext cv c st :
  visit_out_edges g w1 cv c st = visit_out_edges g w2 cv c st.
Proof.
  unfold visit_out_edges. revert st.
  induction (out_edge_index_iterator cv g) as [|i es IH]; intros st; [done|].
  cbn [foldl]. by rewrite visit_edge_ext, IH.
Qed.

Lemma flood_ext fuel c : ∀ labels stack,
  flood fuel g w1 c labels stack = flood fuel g w2 c labels stack.
Proof.
  induction fuel as [|fuel IH]; intros labels [|cv stack]; try done.
  cbn [flood]. rewrite visit_out_edges_ext.
  destruct (visit_out_edges g w2 cv c (labels, stack)). apply IH.
Qed.

Lemma scan_ext vs : ∀ labels k,
  scan g w1 vs labels k = scan g w2 vs labels k.
Proof.
  induction vs as [|v vs IH]; intros labels k; [done|].
  cbn [scan]. rewrite flood_ext.
  destruct (label_at labels v =? invalid_index)%Z; [|apply IH].
  destruct (flood _ g w2 _ _ _); [apply IH|done].
Qed.

End ZeroPattern.

(** C6.  The result depends on the weights only through the positions
    that hold zero: two weight arrays of the same shape and length in
    which the same edge indices hold zero give the same outcome, hence
    the same label array. *)
Theorem labelisation_depends_on_zero_pattern g w1 w2 :
  dimension w1 = dimension w2 → size w1 = size w2 →
  (∀ i, i < num_edges g → (data w1 !! i = Some 0%Z ↔ data w2 !! i = Some 0%Z)) →
  graph_cut_2_labelisation g w1 = graph_cut_2_labelisation g w2.
Proof.
  intros Hdim Hsize Hzeros. unfold graph_cut_2_labelisation, label_components.
  by rewrite Hdim, Hsize, (scan_ext g w1 w2 Hzeros).
Qed.

Lemma labelisation_depends_on_zero_pattern_square :
  graph_cut_2_labelisation square square_cut =
  graph_cut_2_labelisation square square_cut'.
Proof.
  apply (labelisation_depends_on_zero_pattern square square_cut square_cut');
    [reflexivity | reflexivity |].
  intros i Hi. do 4 (destruct i as [|i]; [vm_compute; split; congruence|]).
  vm_compute in Hi. lia.
Defined.

(** The outcome alone: a weight array that is not one-dimensional, or
    whose number of elements differs from the number of edges, makes the
    call throw with the message of the first test that fails. *)
Theorem labelisation_rejects_bad_weights g w :
  dimension w ≠ 1 ∨ size w ≠ num_edges g →
  graph_cut_2_labelisation g w =
    Throw (if dimension w =? 1
           then "Edge weights size does not match graph number of edges."
           else "Edge weights must be scalar.") ∧
  ∀ labels, graph_cut_2_labelisation g w ≠ Ok labels.
Proof.
  intros Hbad. unfold graph_cut_2_labelisation.
  assert (∀ msg labels, @Throw (list Z) msg ≠ Ok labels) as Hthrow by done.
  destruct (Nat.eqb_spec (dimension w) 1) as [Hdim|Hdim]; [|by split].
  destruct (Nat.eqb_spec (num_edges g) (size w)) as [Hsize|Hsize]; [|by split].
  destruct Hbad; congruence.
Qed.

Lemma labelisation_rejects_bad_weights_path :
  graph_cut_2_labelisation (path_graph 16) (array_1d pink_edge_weights) =
    Throw "Edge weights size does not match graph number of edges." ∧
  ∀ labels, graph_cut_2_labelisation (path_graph 16)
              (array_1d pink_edge_weights) ≠ Ok labels.
Proof.
  apply (labelisation_rejects_bad_weights (path_graph 16)
           (array_1d pink_edge_weights)).
  right. vm_compute. lia.
Defined.

(** A two-dimensional array is refused even when it has one element per
    edge. *)
Example labelisation_rejects_matrix :
  graph_cut_2_labelisation square (XArray [2; 2] [0; 5; 0; 2]%Z) =
  Throw "Edge weights must be scalar.".
Proof. reflexivity. Qed.

(** *** The path graph of the Pink graph test *)

(** The claim as the specification words it, on the path of 16 vertices
    and on the readings that keep the 14 weights usable, is refuted: the
    path [0 - 1 - ... - 15] has 15 edges, so the 14 weights are refused;
    the path of the test has 15 vertices and 14 edges and receives 8
    labels, and with a sixteenth, isolated vertex 9 labels; and 7 of the
    weights, not 4, are non-zero. *)
Lemma pink_path_not_five_labels :
  ¬ (∃ labels,
       graph_cut_2_labelisation (path_graph 16) (array_1d pink_edge_weights)
         = Ok labels ∧ distinct_labels labels = 5) ∧
  ¬ (∃ labels,
       graph_cut_2_labelisation (path_graph 15) (array_1d pink_edge_weights)
         = Ok labels ∧ distinct_labels labels = 5) ∧
  ¬ (∃ labels,
       graph_cut_2_labelisation (Graph 16 (edges (path_graph 15)))
         (array_1d pink_edge_weights) = Ok labels ∧ distinct_labels labels = 5) ∧
  length (non_zero_positions pink_edge_weights) ≠ 4.
Proof.
  repeat split.
  - intros (labels & Hrun & _). vm_compute in Hrun. discriminate.
  - intros (labels & Hrun & Hfive). vm_compute in Hrun.
    injection Hrun as <-. vm_compute in Hfive. discriminate.
  - intros (labels & Hrun & Hfive). vm_compute in Hrun.
    injection Hrun as <-. vm_compute in Hfive. discriminate.
  - vm_compute. discriminate.
Qed.

(** C4, amended.  On the path graph of 15 vertices [0 - 1 - ... - 14]
    with the 14 weights of the test, the labelling is
    [1,2,2,2,3,4,4,5,5,6,6,7,7,8,8]: 8 distinct labels, which change
    exactly across the 7 edges of non-zero weight, those of index
    0, 3, 4, 6, 8, 10 and 12. *)
Theorem pink_path_labels :
  graph_cut_2_labelisation (path_graph 15) (array_1d pink_edge_weights) =
    Ok [1; 2; 2; 2; 3; 4; 4; 5; 5; 6; 6; 7; 7; 8; 8]%Z ∧
  distinct_labels [1; 2; 2; 2; 3; 4; 4; 5; 5; 6; 6; 7; 7; 8; 8]%Z = 8 ∧
  boundaries [1; 2; 2; 2; 3; 4; 4; 5; 5; 6; 6; 7; 7; 8; 8]%Z =
    [0; 3; 4; 6; 8; 10; 12] ∧
  non_zero_positions pink_edge_weights = [0; 3; 4; 6; 8; 10; 12].
Proof. repeat split; vm_compute; reflexivity. Qed.

End CutFacts.

(** * Properties of trees *)

Module TreeFacts.
Import Tree.

Lemma wf_treeb_sound t : wf_treeb t = true → wf_tree t.
Proof.
  unfold wf_treeb. rewrite !andb_true_iff, forallb_forall.
  rewrite !Nat.leb_le, Nat.eqb_eq. intros [[[H1 H2] H3] H4].
  assert (∀ v, v < root t →
               v < parent v t < num_vertices t ∧ num_leaves t ≤ parent v t).
  { intros v Hv. specialize (H4 v). rewrite in_seq in H4.
    rewrite !andb_true_iff, !Nat.ltb_lt, Nat.leb_le in H4.
    destruct H4 as [[? ?] ?]; [lia|done]. }
  split; try done; intros v Hv; by apply H.
Qed.

End TreeFacts.

(** * Properties of the tree accumulators *)

Module AccumulatorFacts.
Import Tree Accumulator TreeFacts.

(** *** Sums *)

Lemma foldl_add_sumZ xs : ∀ a, foldl Z.add a xs = (a + sumZ xs)%Z.
Proof.
  induction xs as [|x xs IH]; intros a; simpl; [lia|].
  rewrite IH. lia.
Qed.

Lemma reduce_sum xs : reduce reducer_sum xs = sumZ xs.
Proof. unfold reduce. simpl. by rewrite foldl_add_sumZ. Qed.

Lemma sumZ_app xs ys : sumZ (xs ++ ys) = (sumZ xs + sumZ ys)%Z.
Proof. induction xs as [|x xs IH]; simpl; [done|]. rewrite IH. lia. Qed.

Lemma msum_S p f k :
  msum p f (S k) = (msum p f k + if p k then f k else 0)%Z.
Proof.
  unfold msum. rewrite seq_S, List.filter_app, map_app, sumZ_app. simpl.
  destruct (p k); simpl; lia.
Qed.

Lemma msum_ext p q f k :
  (∀ v, v < k → p v = q v) → msum p f k = msum q f k.
Proof.
  induction k as [|k IH]; intros Hpq; [done|].
  rewrite !msum_S, IH, Hpq; [done|lia|]. intros v Hv. apply Hpq. lia.
Qed.

Lemma msum_split p q r f k :
  (∀ v, v < k → p v = q v || r v) → (∀ v, v < k → q v && r v = false) →
  msum p f k = (msum q f k + msum r f k)%Z.
Proof.
  induction k as [|k IH]; intros Hp Hqr; [done|].
  rewrite !msum_S, IH; [|intros; apply Hp; lia|intros; apply Hqr; lia].
  specialize (Hp k). specialize (Hqr k).
  destruct (p k), (q k), (r k); simpl in *;
    try (discriminate Hp; lia); try (discriminate Hqr; lia); lia.
Qed.

Lemma msum_trunc p f k m :
  (∀ v, k ≤ v → v < k + m → p v = false) → msum p f (k + m) = msum p f k.
Proof.
  induction m as [|m IH]; intros Hp; [by rewrite Nat.add_0_r|].
  rewrite Nat.add_succ_r, msum_S, IH, Hp; [lia|lia|lia|].
  intros v ? ?. apply Hp; lia.
Qed.

(** *** The bottom-up pass *)

Section Sequential.
Context (t : tree) (r : reducer).
Hypothesis wf : wf_tree t.

Lemma child_lt v c : c < num_vertices t → is_child v t c = true → c < v.
Proof.
  unfold is_child. rewrite andb_true_iff, negb_true_iff, Nat.eqb_eq, Nat.eqb_neq.
  intros Hc [Hp Hne]. destruct (decide (c < root t)) as [Hlt|Hge].
  - pose proof (wf_parent t wf c Hlt). lia.
  - assert (c = root t) as -> by (unfold root in *; lia).
    rewrite (wf_root t wf) in Hp. congruence.
Qed.

Lemma children_lt v c : c ∈ children v t → c < v.
Proof.
  intros Hc. apply list_elem_of_In, filter_In in Hc as [Hc Hchild].
  apply in_seq in Hc. apply child_lt; [lia|done].
Qed.

Lemma run_length vs : ∀ output,
  length (foldl (accumulate_vertex t r) output vs) = length output.
Proof.
  induction vs as [|v vs IH]; intros output; [done|].
  cbn [foldl]. rewrite IH. apply length_insert.
Qed.

Lemma run_untouched vs x : ∀ output,
  x ∉ vs → foldl (accumulate_vertex t r) output vs !! x = output !! x.
Proof.
  induction vs as [|v vs IH]; intros output Hx; [done|].
  apply not_elem_of_cons in Hx as [Hxv Hx]. cbn [foldl].
  rewrite IH by done. by apply list_lookup_insert_ne.
Qed.

Lemma children_values output output' v :
  (∀ c, c < v → output' !! c = output !! c) →
  map (value_at output') (children v t) = map (value_at output) (children v t).
Proof.
  intros Hlow. apply map_ext_in. intros c Hc. unfold value_at.
  rewrite Hlow; [done|]. by apply children_lt, list_elem_of_In.
Qed.

(** After the pass over [k, k+1, ..., k+m-1], each of these vertices
    holds the reduction of the final values of its children. *)
Lemma run_children m : ∀ k output v,
  k + m = length output → k ≤ v → v < k + m →
  foldl (accumulate_vertex t r) output (seq k m) !! v =
  Some (reduce r (map (value_at (foldl (accumulate_vertex t r) output (seq k m)))
                      (children v t))).
Proof.
  induction m as [|m IH]; intros k output v Hlen Hk Hv; [lia|].
  cbn [seq foldl]. destruct (decide (v = k)) as [->|Hne].
  - rewrite run_untouched by (rewrite elem_of_seq; lia).
    unfold accumulate_vertex at 1. rewrite list_lookup_insert_eq by lia.
    f_equal. f_equal. symmetry. apply children_values.
    intros c Hc. rewrite run_untouched by (rewrite elem_of_seq; lia).
    apply list_lookup_insert_ne. lia.
  - apply IH; [|lia|lia]. unfold accumulate_vertex.
    rewrite length_insert. lia.
Qed.

End Sequential.

Lemma map_value_at_prefix (l output : list Z) :
  (∀ v, v < length l → output !! v = l !! v) →
  map (value_at output) (seq 0 (length l)) = l.
Proof.
  intros Hpre. apply list_eq. intros i. rewrite list_lookup_fmap.
  destruct (decide (i < length l)) as [Hi|Hi].
  - rewrite lookup_seq_lt by done. simpl. unfold value_at. rewrite Hpre by done.
    by destruct (lookup_lt_is_Some_2 l i Hi) as [x ->].
  - rewrite lookup_seq_ge by lia. simpl. symmetry. apply lookup_ge_None. lia.
Qed.

(** The value at the root is the sum of the leaf values, for any array
    that satisfies the equations of the bottom-up sum. *)
Lemma root_mass t (l output : list Z) :
  wf_tree t → length l = num_leaves t → length output = num_vertices t →
  (∀ v, v < num_leaves t → output !! v = l !! v) →
  (∀ v, num_leaves t ≤ v → v < num_vertices t →
        output !! v = Some (sumZ (map (value_at output) (children v t)))) →
  output !! root t = Some (sumZ l).
Proof.
  intros wf Hl Hlen Hleaf Hnode.
  set (val := value_at output).
  set (F := λ k, msum (λ v, k <=? parent v t) val k).
  pose proof (wf_nonempty t wf) as Hn. pose proof (wf_leaves t wf) as Hnl.
  destruct (decide (num_leaves t = num_vertices t)) as [Hall|Hsome].
  - assert (num_vertices t = 1) as H1.
    { destruct (decide (0 < root t)) as [H0|H0]; [|unfold root in H0; lia].
      pose proof (wf_parent t wf 0 H0). pose proof (wf_internal t wf 0 H0). lia. }
    unfold root. rewrite H1. simpl. rewrite Hleaf by lia.
    destruct l as [|x [|y l]]; simpl in *; try lia. f_equal. lia.
  - assert (Hroot : num_leaves t ≤ root t) by (unfold root; lia).
    assert (Hstart : F (num_leaves t) = sumZ l).
    { unfold F, msum, val. rewrite <- Hl, forallb_filter_id.
      - rewrite map_value_at_prefix; [done|]. intros v Hv. apply Hleaf. lia.
      - apply forallb_forall. intros v Hv. apply in_seq in Hv.
        apply Nat.leb_le. rewrite Hl. apply (wf_internal t wf). lia. }
    assert (Hval : ∀ k, num_leaves t ≤ k → k < num_vertices t →
                        val k = msum (is_child k t) val k).
    { intros k Hk Hkn. unfold val at 1, value_at. rewrite Hnode by done. simpl.
      unfold children. fold (msum (is_child k t) val (num_vertices t)).
      replace (num_vertices t) with (k + (num_vertices t - k)) by lia.
      apply msum_trunc. intros v Hv Hvn.
      destruct (is_child k t v) eqn:Hc; [|done].
      apply (child_lt t wf) in Hc; lia. }
    assert (Hstep : ∀ k, num_leaves t ≤ k → k < root t → F (S k) = F k).
    { intros k Hk Hkr. unfold F. rewrite msum_S.
      pose proof (wf_parent t wf k Hkr) as Hpk.
      destruct (Nat.leb_spec (S k) (parent k t)); [|lia].
      rewrite Hval by (unfold root in Hkr; lia). symmetry.
      apply msum_split; intros v Hv; unfold is_child.
      - destruct (Nat.leb_spec k (parent v t)), (Nat.leb_spec (S k) (parent v t)),
          (Nat.eqb_spec (parent v t) k), (Nat.eqb_spec v k); simpl; lia.
      - destruct (Nat.leb_spec (S k) (parent v t)),
          (Nat.eqb_spec (parent v t) k); simpl; lia. }
    assert (Hend : ∀ d, num_leaves t + d ≤ root t →
                        F (num_leaves t + d) = sumZ l).
    { induction d as [|d IH]; intros Hd; [by rewrite Nat.add_0_r|].
      rewrite Nat.add_succ_r, Hstep by lia. apply IH. lia. }
    assert (output !! root t = Some (val (root t))) as ->.
    { unfold val, value_at. by rewrite Hnode by (unfold root; lia). }
    f_equal. rewrite Hval by (unfold root; lia).
    rewrite <- (Hend (root t - num_leaves t)) by lia.
    replace (num_leaves t + (root t - num_leaves t)) with (root t) by lia.
    unfold F. apply msum_ext. intros v Hv. unfold is_child.
    pose proof (wf_parent t wf v Hv).
    destruct (Nat.leb_spec (root t) (parent v t)),
      (Nat.eqb_spec (parent v t) (root t)), (Nat.eqb_spec v (root t));
      simpl; unfold root in *; lia.
Qed.

(** C2.  For every tree and every array of leaf values,
    [accumulate_sequential] with the sum copies the leaf values to the
    leaf positions, stores at each internal vertex the sum of the
    outputs of its children, and so holds at the root the sum of all
    leaf values; on the binary tree with four leaves and leaf values
    [1,2,3,4] the result is [1,2,3,4,3,7,10]. *)
Theorem accumulate_sequential_sum :
  (∀ t l, wf_tree t → length l = num_leaves t →
     ∃ output,
       accumulate_sequential t l reducer_sum = Ok output ∧
       length output = num_vertices t ∧
       (∀ v, v < num_leaves t → output !! v = l !! v) ∧
       (∀ v, num_leaves t ≤ v → v < num_vertices t →
             output !! v = Some (sumZ (map (value_at output) (children v t)))) ∧
       output !! root t = Some (sumZ l)) ∧
  accumulate_sequential binary_tree [1; 2; 3; 4]%Z reducer_sum =
    Ok [1; 2; 3; 4; 3; 7; 10]%Z.
Proof.
  split; [|reflexivity].
  intros t l wf Hl. pose proof (wf_leaves t wf) as Hnl.
  unfold accumulate_sequential. rewrite Hl, Nat.eqb_refl. simpl.
  unfold mbind, result_bind.
  set (output0 := l ++ replicate (num_vertices t - num_leaves t) 0%Z).
  set (vs := seq (num_leaves t) (num_vertices t - num_leaves t)).
  assert (Hlen0 : length output0 = num_vertices t).
  { unfold output0. rewrite length_app, length_replicate. lia. }
  assert (Hleaf : ∀ v, v < num_leaves t →
            foldl (accumulate_vertex t reducer_sum) output0 vs !! v = l !! v).
  { intros v Hv. rewrite run_untouched by (unfold vs; rewrite elem_of_seq; lia).
    unfold output0. apply lookup_app_l. lia. }
  assert (Hnode : ∀ v, num_leaves t ≤ v → v < num_vertices t →
            foldl (accumulate_vertex t reducer_sum) output0 vs !! v =
            Some (sumZ (map (value_at (foldl (accumulate_vertex t reducer_sum)
                                             output0 vs))
                            (children v t)))).
  { intros v Hv Hvn. rewrite <- reduce_sum. apply run_children; [done|lia|lia|lia]. }
  eexists. split; [reflexivity|]. split; [by rewrite run_length|].
  split; [done|]. split; [done|].
  apply root_mass; [done|done|by rewrite run_length|done|done].
Qed.

Lemma accumulate_sequential_sum_binary_tree :
  ∃ output,
    accumulate_sequential binary_tree [1; 2; 3; 4]%Z reducer_sum = Ok output ∧
    length output = num_vertices binary_tree ∧
    (∀ v, v < num_leaves binary_tree → output !! v = [1; 2; 3; 4]%Z !! v) ∧
    (∀ v, num_leaves binary_tree ≤ v → v < num_vertices binary_tree →
          output !! v =
          Some (sumZ (map (value_at output) (children v binary_tree)))) ∧
    output !! root binary_tree = Some (sumZ [1; 2; 3; 4]%Z).
Proof.
  apply (proj1 accumulate_sequential_sum binary_tree [1; 2; 3; 4]%Z);
    [apply wf_treeb_sound; reflexivity | reflexivity].
Defined.

(** *** The bindings *)

Section Dispatch.
Context (enum_value : accumulators.t → Z).
Hypothesis enum_value_inj : ∀ a b, enum_value a = enum_value b → a = b.

Lemma enum_value_eqb a b :
  (enum_value a =? enum_value b)%Z = bool_decide (strategy_of a = strategy_of b).
Proof.
  destruct (Z.eqb_spec (enum_value a) (enum_value b)) as [Heq|Hne].
  - apply enum_value_inj in Heq as ->. by rewrite bool_decide_eq_true_2.
  - destruct a, b; try done; by destruct Hne.
Qed.

Lemma not_member_eqb sel a :
  (∀ b, sel ≠ enum_value b) → (sel =? enum_value a)%Z = false.
Proof. intros Hsel. apply Z.eqb_neq, Hsel. Qed.

End Dispatch.

(** C8.  Each of the three accumulation entry points hands a selector
    that is a member of [hg::accumulators] to the engine with the
    strategy of the same name, and throws "Unknown accumulator." for a
    selector that is none of the eight members. *)
Theorem accumulator_dispatch (enum_value : accumulators.t → Z)
    {value_array output_array functor : Type}
    (par seq : tree → value_array → accumulator → result output_array)
    (comb : tree → value_array → value_array → accumulator → functor →
            result output_array) :
  (∀ a b, enum_value a = enum_value b → a = b) →
  (∀ t input a,
     py_accumulate_parallel enum_value par t input (enum_value a) =
     par t input (strategy_of a)) ∧
  (∀ t vertex_data a,
     py_accumulate_sequential enum_value seq t vertex_data (enum_value a) =
     seq t vertex_data (strategy_of a)) ∧
  (∀ f t input vertex_data a,
     py_accumulate_and_combine_sequential enum_value comb f t input vertex_data
       (enum_value a) =
     comb t input vertex_data (strategy_of a) f) ∧
  (∀ sel, (∀ a, sel ≠ enum_value a) →
     (∀ t input,
        py_accumulate_parallel enum_value par t input sel =
        Throw "Unknown accumulator.") ∧
     (∀ t vertex_data,
        py_accumulate_sequential enum_value seq t vertex_data sel =
        Throw "Unknown accumulator.") ∧
     (∀ f t input vertex_data,
        py_accumulate_and_combine_sequential enum_value comb f t input
          vertex_data sel =
        Throw "Unknown accumulator.")).
Proof.
  intros Hinj. repeat split.
  - intros t input a. unfold py_accumulate_parallel.
    rewrite !(enum_value_eqb enum_value Hinj). by destruct a.
  - intros t vertex_data a. unfold py_accumulate_sequential.
    rewrite !(enum_value_eqb enum_value Hinj). by destruct a.
  - intros f t input vertex_data a. unfold py_accumulate_and_combine_sequential.
    rewrite !(enum_value_eqb enum_value Hinj). by destruct a.
  - intros t input. unfold py_accumulate_parallel.
    by rewrite !(not_member_eqb enum_value) by done.
  - intros t vertex_data. unfold py_accumulate_sequential.
    by rewrite !(not_member_eqb enum_value) by done.
  - intros f t input vertex_data. unfold py_accumulate_and_combine_sequential.
    by rewrite !(not_member_eqb enum_value) by done.
Qed.

Lemma accumulator_dispatch_in_order :
  (∀ t input a,
     py_accumulate_parallel enum_value_in_order report_strategy t input
       (enum_value_in_order a) =
     Ok (strategy_of a)) ∧
  (∀ t vertex_data a,
     py_accumulate_sequential enum_value_in_order report_strategy t vertex_data
       (enum_value_in_order a) =
     Ok (strategy_of a)) ∧
  (∀ f t input vertex_data a,
     py_accumulate_and_combine_sequential enum_value_in_order
       report_strategy_combine f t input vertex_data (enum_value_in_order a) =
     Ok (strategy_of a)) ∧
  (∀ sel, (∀ a, sel ≠ enum_value_in_order a) →
     (∀ t input,
        py_accumulate_parallel enum_value_in_order report_strategy t input sel =
        Throw "Unknown accumulator.") ∧
     (∀ t vertex_data,
        py_accumulate_sequential enum_value_in_order report_strategy t
          vertex_data sel =
        Throw "Unknown accumulator.") ∧
     (∀ f t input vertex_data,
        py_accumulate_and_combine_sequential enum_value_in_order
          report_strategy_combine f t input vertex_data sel =
        Throw "Unknown accumulator.")).
Proof.
  apply (accumulator_dispatch enum_value_in_order
           report_strategy report_strategy report_strategy_combine).
  intros a b; destruct a, b; simpl; intros H; (reflexivity || discriminate H).
Defined.

(** A selector outside the enumeration, on the sequential entry point. *)
Example unknown_accumulator_throws t vertex_data :
  py_accumulate_sequential enum_value_in_order report_strategy t vertex_data 8 =
  Throw "Unknown accumulator.".
Proof. reflexivity. Qed.

(** C9.  Called without a condition, [propagate_parallel] gives every
    vertex other than the root the input value of its parent, as it does
    when the condition is true at every vertex. *)
Theorem propagate_parallel_without_condition t input :
  wf_tree t → length input = num_vertices t →
  ∃ output,
    py_propagate_parallel t input None = Ok output ∧
    length output = num_vertices t ∧
    (∀ v, v < num_vertices t → v ≠ root t →
          output !! v = input !! parent v t) ∧
    py_propagate_parallel t input
      (Some (condition_1d (replicate (num_vertices t) true))) = Ok output.
Proof.
  intros wf Hlen. eexists. split; [|split; [|split]].
  - unfold py_propagate_parallel, propagate_parallel. simpl.
    rewrite Hlen, Nat.eqb_refl. reflexivity.
  - by rewrite length_map, length_seq.
  - intros v Hv Hroot. rewrite list_lookup_fmap, lookup_seq_lt by done. simpl.
    destruct (Nat.eqb_spec v (root t)) as [|_]; [done|].
    assert (parent v t < length input) as Hp.
    { rewrite Hlen. apply (wf_parent t wf). unfold root in *. lia. }
    unfold value_at. by destruct (lookup_lt_is_Some_2 input _ Hp) as [x ->].
  - unfold py_propagate_parallel, propagate_parallel_if. simpl.
    rewrite Hlen, length_replicate, !Nat.eqb_refl. simpl.
    unfold mbind, result_bind. f_equal. apply map_ext_in. intros v Hv.
    apply in_seq in Hv. rewrite lookup_replicate_2 by lia. done.
Qed.

Lemma propagate_parallel_without_condition_binary_tree :
  ∃ output,
    py_propagate_parallel binary_tree [1; 2; 3; 4; 5; 6; 7]%Z None = Ok output ∧
    length output = num_vertices binary_tree ∧
    (∀ v, v < num_vertices binary_tree → v ≠ root binary_tree →
          output !! v = [1; 2; 3; 4; 5; 6; 7]%Z !! parent v binary_tree) ∧
    py_propagate_parallel binary_tree [1; 2; 3; 4; 5; 6; 7]%Z
      (Some (condition_1d (replicate (num_vertices binary_tree) true)))
      = Ok output.
Proof.
  apply (propagate_parallel_without_condition binary_tree
           [1; 2; 3; 4; 5; 6; 7]%Z);
    [apply wf_treeb_sound; reflexivity | reflexivity].
Defined.

End AccumulatorFacts.

(** * Properties of the LCA queries *)

Module LCAFacts.
Import Tree LCA TreeFacts.

Section Ancestors.
Context (t : tree).
Hypothesis wf : wf_tree t.

Lemma root_lt : root t < num_vertices t.
Proof. pose proof (wf_nonempty t wf). unfold root. lia. Qed.

Lemma proper_parent v : v < num_vertices t → parent v t ≠ v → v < root t.
Proof.
  intros Hv Hp. destruct (decide (v = root t)) as [->|Hne].
  - by rewrite (wf_root t wf) in Hp.
  - unfold root in *. lia.
Qed.

Lemma ancestors_fuel_enough f1 : ∀ f2 v,
  v < num_vertices t → num_vertices t - v ≤ f1 → num_vertices t - v ≤ f2 →
  ancestors_fuel f1 v t = ancestors_fuel f2 v t.
Proof.
  induction f1 as [|f1 IH]; intros [|f2] v Hv H1 H2; try lia.
  cbn [ancestors_fuel]. f_equal.
  destruct (Nat.eqb_spec (parent v t) v) as [|Hp]; [done|].
  pose proof (wf_parent t wf v (proper_parent v Hv Hp)).
  apply IH; lia.
Qed.

Lemma ancestors_root : ancestors (root t) t = [root t].
Proof.
  unfold ancestors. pose proof root_lt.
  replace (num_vertices t - root t) with 1 by (unfold root in *; lia).
  cbn [ancestors_fuel]. by rewrite (wf_root t wf), Nat.eqb_refl.
Qed.

Lemma ancestors_step v :
  v < root t → ancestors v t = v :: ancestors (parent v t) t.
Proof.
  intros Hv. pose proof (wf_parent t wf v Hv) as Hp. pose proof root_lt.
  unfold ancestors at 1.
  replace (num_vertices t - v) with (S (num_vertices t - v - 1)) by lia.
  cbn [ancestors_fuel]. destruct (Nat.eqb_spec (parent v t) v); [lia|].
  f_equal. apply ancestors_fuel_enough; lia.
Qed.

(** Induction from the root down to the leaves. *)
Lemma tree_ind (P : nat → Prop) :
  P (root t) → (∀ v, v < root t → P (parent v t) → P v) →
  ∀ v, v < num_vertices t → P v.
Proof.
  intros Hroot Hstep.
  assert (∀ d v, v < num_vertices t → num_vertices t - v ≤ d → P v) as Hall.
  { induction d as [|d IH]; intros v Hv Hd; [lia|].
    destruct (decide (v = root t)) as [->|Hne]; [done|].
    assert (v < root t) as Hlt by (unfold root in *; lia).
    pose proof (wf_parent t wf v Hlt). apply Hstep; [done|]. apply IH; lia. }
  intros v Hv. by apply (Hall (num_vertices t)); [|lia].
Qed.

Lemma is_ancestor_In a v : is_ancestor a v t = true ↔ In a (ancestors v t).
Proof.
  unfold is_ancestor. rewrite existsb_exists. split.
  - intros (x & Hx & Heq). by apply Nat.eqb_eq in Heq as ->.
  - intros Ha. exists a. by rewrite Nat.eqb_refl.
Qed.

Lemma is_ancestor_refl v : v < num_vertices t → is_ancestor v v t = true.
Proof.
  intros Hv. apply is_ancestor_In. unfold ancestors.
  replace (num_vertices t - v) with (S (num_vertices t - v - 1)) by lia.
  by left.
Qed.

Lemma root_is_ancestor v :
  v < num_vertices t → is_ancestor (root t) v t = true.
Proof.
  intros Hv. apply is_ancestor_In. revert v Hv. apply tree_ind.
  - rewrite ancestors_root. by left.
  - intros v Hv IH. rewrite ancestors_step by done. by right.
Qed.

(** A proper ancestor is less deep. *)
Lemma ancestor_depth v :
  v < num_vertices t →
  ∀ a, In a (ancestors v t) → a = v ∨ depth a t < depth v t.
Proof.
  revert v. apply (tree_ind (λ v, ∀ a, In a (ancestors v t) →
                                       a = v ∨ depth a t < depth v t)).
  - rewrite ancestors_root. intros a [<-|[]]. by left.
  - intros v Hv IH a. unfold depth at 2. rewrite ancestors_step by done.
    intros [<-|Ha]; [by left|]. right. cbn [length].
    destruct (IH a Ha) as [->|Hlt]; unfold depth in *; lia.
Qed.

Lemma deepest_from best x candidates :
  (∀ a, In a candidates → a = x ∨ depth a t < depth x t) →
  best = x ∨ (depth best t < depth x t ∧ In x candidates) →
  foldl (deeper t) best candidates = x.
Proof.
  revert best. induction candidates as [|a cs IH]; intros best Hall Hbest.
  - destruct Hbest as [->|[_ []]]. done.
  - cbn [foldl]. apply IH; [intros b Hb; apply Hall; by right|].
    unfold deeper. destruct (Nat.ltb_spec (depth best t) (depth a t)) as [Hlt|Hge].
    + destruct (Hall a) as [->|Ha]; [by left|by left|].
      right. destruct Hbest as [->|[Hb [Hx|Hx]]]; [lia|subst; lia|by split].
    + destruct Hbest as [->|[Hb [Hx|Hx]]]; [by left|subst; lia|by right].
Qed.

End Ancestors.

(** C3.  For the structure built from any tree, [lca(v, v)] is [v],
    [lca(v, root)] is the root, and [lca(a, b)] equals [lca(b, a)]. *)
Theorem lca_laws t :
  wf_tree t →
  (∀ v, v < num_vertices t → py_lca (py_init t) v v = Ok v) ∧
  (∀ v, v < num_vertices t → py_lca (py_init t) v (root t) = Ok (root t)) ∧
  (∀ a b, py_lca (py_init t) a b = py_lca (py_init t) b a).
Proof.
  intros wf. unfold py_lca, py_init, lca. cbn [lca_tree]. repeat split.
  - intros v Hv. destruct (Nat.ltb_spec v (num_vertices t)); [|lia].
    simpl. unfold mbind, result_bind. f_equal. apply deepest_from.
    + intros a Ha. apply filter_In in Ha as [_ Ha].
      apply andb_true_iff in Ha as [Ha _]. apply is_ancestor_In in Ha.
      by apply ancestor_depth.
    + pose proof (root_is_ancestor t wf v Hv) as Hroot.
      apply is_ancestor_In in Hroot.
      destruct (ancestor_depth t wf v Hv _ Hroot) as [Heq|Hlt]; [by left|].
      right. split; [done|]. apply filter_In. split; [apply in_seq; lia|].
      by rewrite is_ancestor_refl.
  - intros v Hv. pose proof (root_lt t wf).
    destruct (Nat.ltb_spec v (num_vertices t)); [|lia].
    destruct (Nat.ltb_spec (root t) (num_vertices t)); [|lia].
    simpl. unfold mbind, result_bind. f_equal. apply deepest_from; [|by left].
    intros a Ha. apply filter_In in Ha as [_ Ha].
    apply andb_true_iff in Ha as [_ Ha]. apply is_ancestor_In in Ha.
    rewrite ancestors_root in Ha by done. destruct Ha as [<-|[]]. by left.
  - intros a b. rewrite (andb_comm (a <? _)). f_equal.
    unfold common_ancestors.
    by rewrite (filter_ext _ _ (λ x, andb_comm (is_ancestor x a t) (is_ancestor x b t))).
Qed.

Lemma lca_laws_binary_tree :
  (∀ v, v < num_vertices binary_tree →
        py_lca (py_init binary_tree) v v = Ok v) ∧
  (∀ v, v < num_vertices binary_tree →
        py_lca (py_init binary_tree) v (root binary_tree) =
        Ok (root binary_tree)) ∧
  (∀ a b, py_lca (py_init binary_tree) a b = py_lca (py_init binary_tree) b a).
Proof.
  apply (lca_laws binary_tree).
  apply wf_treeb_sound. reflexivity.
Defined.

(** Two queries on the binary tree. *)
Example lca_binary_tree :
  py_lca (py_init binary_tree) 0 1 = Ok 4 ∧
  py_lca (py_init binary_tree) 1 2 = Ok 6 ∧
  py_lca (py_init binary_tree) 2 5 = Ok 5 ∧
  py_lca (py_init binary_tree) 2 7 = Throw "vertex index out of range.".
Proof. repeat split; reflexivity. Qed.

End LCAFacts.

(** * Further properties of the cut labelling *)

Module CutMoreFacts.
Import Cut CutFacts CutMore.

(** *** Labels are written once *)

Section WriteOnce.
Context (g : graph) (w : xarray).

Lemma keeps_refl labels : keeps labels labels.
Proof. by split. Qed.

Lemma keeps_trans l1 l2 l3 : keeps l1 l2 → keeps l2 l3 → keeps l1 l3.
Proof.
  intros [Hlen1 H1] [Hlen2 H2]. split; [congruence|].
  intros v l Hv Hl. apply H2; [by apply H1|done].
Qed.

Lemma keeps_insert labels n c :
  label_at labels n = invalid_index → keeps labels (<[n := c]> labels).
Proof.
  intros Hn. split; [apply length_insert|].
  intros v l Hv Hl. rewrite list_lookup_insert_ne; [done|].
  intros ->. unfold label_at in Hn. rewrite Hv in Hn. done.
Qed.

Lemma visit_edge_keeps cv c labels stack i labels' stack' :
  visit_edge g w cv c (labels, stack) i = (labels', stack') →
  keeps labels labels'.
Proof.
  unfold visit_edge. intros Hstep.
  destruct (weight_is_zero w i); [|simplify_eq; apply keeps_refl].
  destruct (edge i g) as [e|]; [|simplify_eq; apply keeps_refl].
  destruct (Z.eqb_spec (label_at labels (other_vertex e cv)) invalid_index);
    simplify_eq; [by apply keeps_insert|apply keeps_refl].
Qed.

Lemma visit_edges_keeps cv c es : ∀ labels stack labels' stack',
  foldl (visit_edge g w cv c) (labels, stack) es = (labels', stack') →
  keeps labels labels'.
Proof.
  induction es as [|i es IH]; intros labels stack labels' stack' Hrun.
  - cbn [foldl] in Hrun. simplify_eq. apply keeps_refl.
  - cbn [foldl] in Hrun.
    destruct (visit_edge g w cv c (labels, stack) i) as [labels1 stack1] eqn:H1.
    eapply keeps_trans; [by eapply visit_edge_keeps|by eapply IH].
Qed.

Lemma flood_keeps fuel c : ∀ labels stack labels',
  flood fuel g w c labels stack = Some labels' → keeps labels labels'.
Proof.
  induction fuel as [|fuel IH]; intros labels [|cv stack] labels' Hrun;
    cbn [flood] in Hrun; simplify_eq; try apply keeps_refl.
  destruct (visit_out_edges g w cv c (labels, stack)) as [labels1 stack1] eqn:H1.
  eapply keeps_trans; [by eapply visit_edges_keeps|by eapply IH].
Qed.

Lemma scan_keeps vs : ∀ labels k labels' k',
  scan g w vs labels k = Some (labels', k') →
  keeps labels labels' ∧ (k ≤ k' ≤ k + Z.of_nat (length vs))%Z.
Proof.
  induction vs as [|v vs IH]; intros labels k labels' k' Hrun;
    cbn [scan] in Hrun.
  - simplify_eq. split; [apply keeps_refl|simpl; lia].
  - destruct (Z.eqb_spec (label_at labels v) invalid_index) as [Hv|Hv].
    + destruct (flood _ g w _ _ _) as [labels1|] eqn:Hflood; [|done].
      apply IH in Hrun as [Hkeep Hk]. split; [|cbn [length]; lia].
      eapply keeps_trans; [|exact Hkeep].
      eapply keeps_trans; [by apply keeps_insert|by eapply flood_keeps].
    + apply IH in Hrun as [Hkeep Hk]. split; [done|cbn [length]; lia].
Qed.

End WriteOnce.

(** X7.  The scan never changes a label once it is written, keeps the
    length of the label array, and raises the label counter by at most
    one per scanned vertex; this holds for every graph and every weight
    array. *)
Theorem scan_never_overwrites g w vs labels k labels' k' :
  scan g w vs labels k = Some (labels', k') →
  length labels' = length labels ∧
  (∀ v l, labels !! v = Some l → l ≠ invalid_index → labels' !! v = Some l) ∧
  (k ≤ k' ≤ k + Z.of_nat (length vs))%Z.
Proof.
  intros Hrun. destruct (scan_keeps g w vs _ _ _ _ Hrun) as [[Hlen Hkeep] Hk].
  done.
Qed.

Lemma scan_never_overwrites_square :
  length [1; 1; 2; 2]%Z = length [1; 1; -1; -1]%Z ∧
  (∀ v l, [1; 1; -1; -1]%Z !! v = Some l → l ≠ invalid_index →
          [1; 1; 2; 2]%Z !! v = Some l) ∧
  (1 ≤ 2 ≤ 1 + Z.of_nat (length [2; 3]))%Z.
Proof.
  apply (scan_never_overwrites square square_cut [2; 3] [1; 1; -1; -1]%Z 1
           [1; 1; 2; 2]%Z 2).
  reflexivity.
Defined.

(** *** The labelling is determined by the connectivity *)

Lemma labelisation_inv g w labels :
  wf_graph g → dimension w = 1 → size w = num_edges g →
  graph_cut_2_labelisation g w = Ok labels →
  ∃ k, label_components g w = Some (labels, k) ∧
       scan_inv g w (num_vertices g) labels k.
Proof.
  intros wf Hdim Hsize Hrun.
  destruct (labelisation_total g w wf Hdim Hsize) as (labels' & k & Hk & Hrun' & Hinv).
  exists k. rewrite Hrun in Hrun'. by simplify_eq.
Qed.

Lemma scan_inv_lookup g w labels k v :
  scan_inv g w (num_vertices g) labels k → v < num_vertices g →
  ∃ l, labels !! v = Some l ∧ (1 ≤ l ≤ k)%Z.
Proof.
  intros Hinv Hv. destruct (si_done Hinv v Hv Hv) as (l & Hl).
  exists l. split; [apply Hl|by apply (si_range Hinv v)].
Qed.

(** A smaller label has already occurred. *)
Lemma scan_inv_smaller g w i labels k v l l' :
  scan_inv g w i labels k → labels !! v = Some l → (1 ≤ l' < l)%Z →
  ∃ u, u < v ∧ labels !! u = Some l'.
Proof.
  intros Hinv Hv Hl.
  apply (scan_inv_earlier g w i labels k (Z.to_nat (l - l') - 1) v l' Hinv);
    [lia|]. rewrite Hv. f_equal. lia.
Qed.

Lemma scan_inv_canonical g1 w1 g2 w2 labels1 k1 labels2 k2 :
  wf_graph g1 → wf_graph g2 → num_vertices g1 = num_vertices g2 →
  scan_inv g1 w1 (num_vertices g1) labels1 k1 →
  scan_inv g2 w2 (num_vertices g2) labels2 k2 →
  (∀ u v, u < num_vertices g1 → v < num_vertices g1 →
          (connected g1 w1 u v ↔ connected g2 w2 u v)) →
  labels1 = labels2.
Proof.
  intros wf1 wf2 Hn Hinv1 Hinv2 Hconn.
  assert (Hsame1 := λ u v, scan_inv_same_label g1 w1 labels1 k1 u v wf1 Hinv1).
  assert (Hsame2 := λ u v, scan_inv_same_label g2 w2 labels2 k2 u v wf2 Hinv2).
  assert (Hall : ∀ m v, v < m → v < num_vertices g1 →
                        labels1 !! v = labels2 !! v).
  { induction m as [|m IH]; intros v Hvm Hv; [lia|].
    destruct (scan_inv_lookup _ _ _ _ v Hinv1 Hv) as (l1 & Hl1 & Hr1).
    destruct (scan_inv_lookup _ _ _ _ v Hinv2) as (l2 & Hl2 & Hr2); [lia|].
    rewrite Hl1, Hl2. f_equal.
    destruct (Z.lt_trichotomy l1 l2) as [Hlt|[Heq|Hgt]]; [|done|].
    - destruct (scan_inv_smaller _ _ _ _ _ v l2 l1 Hinv2 Hl2) as (x & Hx & Hlx);
        [lia|].
      assert (labels1 !! x = labels1 !! v) as Heq
        by (rewrite IH, Hlx, Hl1 by lia; done).
      apply Hsame1, Hconn, Hsame2 in Heq; try lia. congruence.
    - destruct (scan_inv_smaller _ _ _ _ _ v l1 l2 Hinv1 Hl1) as (x & Hx & Hlx);
        [lia|].
      assert (labels2 !! x = labels2 !! v) as Heq
        by (rewrite <- IH, Hlx, Hl2 by lia; done).
      apply Hsame2, Hconn, Hsame1 in Heq; try lia. congruence. }
  apply list_eq. intros v. destruct (decide (v < num_vertices g1)) as [Hv|Hv].
  - by apply (Hall (S v)); [lia|].
  - rewrite !lookup_ge_None_2; [done| |].
    + rewrite (si_length Hinv2). lia.
    + rewrite (si_length Hinv1). lia.
Qed.

Lemma connected_iff_labels g w labels u v :
  wf_graph g → dimension w = 1 → size w = num_edges g →
  graph_cut_2_labelisation g w = Ok labels →
  u < num_vertices g → v < num_vertices g →
  (connected g w u v ↔ labels !! u = labels !! v).
Proof.
  intros wf Hdim Hsize Hrun Hu Hv.
  destruct (labelisation_inv g w labels wf Hdim Hsize Hrun) as (k & _ & Hinv).
  symmetry. by apply scan_inv_same_label with k.
Qed.

(** X1.  The label array is determined by the number of vertices and by
    which vertices are connected: two graphs with the same vertices whose
    uncut edges connect the same pairs of vertices receive the same
    labels, whatever the order, the orientation, the multiplicity and the
    weights of their edges. *)
Theorem labelisation_canonical g1 w1 g2 w2 :
  wf_graph g1 → dimension w1 = 1 → size w1 = num_edges g1 →
  wf_graph g2 → dimension w2 = 1 → size w2 = num_edges g2 →
  num_vertices g1 = num_vertices g2 →
  (∀ u v, u < num_vertices g1 → v < num_vertices g1 →
          (connected g1 w1 u v ↔ connected g2 w2 u v)) →
  graph_cut_2_labelisation g1 w1 = graph_cut_2_labelisation g2 w2.
Proof.
  intros wf1 Hdim1 Hsize1 wf2 Hdim2 Hsize2 Hn Hconn.
  destruct (labelisation_total g1 w1 wf1 Hdim1 Hsize1)
    as (labels1 & k1 & _ & -> & Hinv1).
  destruct (labelisation_total g2 w2 wf2 Hdim2 Hsize2)
    as (labels2 & k2 & _ & -> & Hinv2).
  f_equal.
  exact (scan_inv_canonical g1 w1 g2 w2 labels1 k1 labels2 k2
           wf1 wf2 Hn Hinv1 Hinv2 Hconn).
Qed.

Lemma labelisation_canonical_square :
  graph_cut_2_labelisation square square_cut =
  graph_cut_2_labelisation two_edges two_edges_uncut.
Proof.
  apply (labelisation_canonical square square_cut two_edges two_edges_uncut);
    try (apply wf_graphb_sound; reflexivity); try reflexivity.
  intros u v Hu Hv.
  rewrite (connected_iff_labels square square_cut [1; 1; 2; 2]%Z),
    (connected_iff_labels two_edges two_edges_uncut [1; 1; 2; 2]%Z);
    try (apply wf_graphb_sound; reflexivity); try reflexivity; done.
Defined.

(** *** Bounds on the labels *)

Lemma scan_inv_label_le g w i labels k :
  scan_inv g w i labels k →
  ∀ m v l, v < m → labels !! v = Some l → (l ≤ Z.of_nat v + 1)%Z.
Proof.
  intros Hinv. induction m as [|m IH]; intros v l Hvm Hv; [lia|].
  destruct (decide (2 ≤ l)%Z) as [Hl|Hl]; [|lia].
  destruct (si_growth Hinv v l Hv Hl) as (u & Hu & Hlu).
  apply IH in Hlu; lia.
Qed.

(** X5.  The label of vertex [v] lies between 1 and [v + 1]; so vertex 0
    always carries the label 1. *)
Theorem labelisation_label_le_index g w :
  wf_graph g → dimension w = 1 → size w = num_edges g →
  ∃ labels, graph_cut_2_labelisation g w = Ok labels ∧
            ∀ v l, labels !! v = Some l → (1 ≤ l ≤ Z.of_nat v + 1)%Z.
Proof.
  intros wf Hdim Hsize.
  destruct (labelisation_total g w wf Hdim Hsize) as (labels & k & _ & Hrun & Hinv).
  exists labels. split; [done|]. intros v l Hv. split.
  - pose proof (lookup_lt_Some _ _ _ Hv) as Hlt. rewrite (si_length Hinv) in Hlt.
    destruct (scan_inv_lookup g w labels k v Hinv Hlt) as (l' & Hl' & Hr).
    assert (l' = l) by congruence. lia.
  - apply (scan_inv_label_le g w _ labels k Hinv (S v) v); [lia|done].
Qed.

Lemma labelisation_label_le_index_square :
  ∃ labels, graph_cut_2_labelisation square square_cut = Ok labels ∧
            ∀ v l, labels !! v = Some l → (1 ≤ l ≤ Z.of_nat v + 1)%Z.
Proof.
  apply (labelisation_label_le_index square square_cut);
    [apply wf_graphb_sound; reflexivity | reflexivity | reflexivity].
Defined.

(** X4.  When the uncut edges connect every vertex to vertex 0, every
    vertex receives the label 1. *)
Theorem labelisation_connected g w :
  wf_graph g → dimension w = 1 → size w = num_edges g →
  (∀ v, v < num_vertices g → connected g w 0 v) →
  graph_cut_2_labelisation g w = Ok (replicate (num_vertices g) 1%Z).
Proof.
  intros wf Hdim Hsize Hconn.
  destruct (labelisation_total g w wf Hdim Hsize) as (labels & k & _ & -> & Hinv).
  f_equal. apply list_eq. intros v.
  destruct (decide (v < num_vertices g)) as [Hv|Hv].
  - rewrite lookup_replicate_2 by done.
    destruct (scan_inv_lookup g w labels k 0 Hinv) as (l & Hl & Hr); [lia|].
    pose proof (scan_inv_label_le g w _ labels k Hinv 1 0 l) as Hle.
    assert (l = 1%Z) as -> by (specialize (Hle ltac:(lia) Hl); lia).
    rewrite <- Hl. symmetry.
    apply (scan_inv_same_label g w labels k 0 v wf Hinv); [lia|done|].
    by apply Hconn.
  - rewrite !lookup_ge_None_2; [done| |].
    + rewrite length_replicate. lia.
    + rewrite (si_length Hinv). lia.
Qed.

Lemma labelisation_connected_square :
  graph_cut_2_labelisation square square_one_cut =
  Ok (replicate (num_vertices square) 1%Z).
Proof.
  apply (labelisation_connected square square_one_cut);
    [apply wf_graphb_sound; reflexivity | reflexivity | reflexivity |].
  intros v Hv.
  rewrite (connected_iff_labels square square_one_cut [1; 1; 1; 1]%Z);
    try (apply wf_graphb_sound; reflexivity); try reflexivity;
    [|vm_compute; lia|done].
  do 4 (destruct v as [|v]; [reflexivity|]). vm_compute in Hv. lia.
Defined.

(** *** Every edge cut *)

Section AllCut.
Context (g : graph) (w : xarray).
Hypothesis all_cut : ∀ i, i < num_edges g → data w !! i ≠ Some 0%Z.

Lemma visit_edge_cut cv c st i :
  In i (out_edge_index_iterator cv g) → visit_edge g w cv c st i = st.
Proof.
  intros Hi. apply filter_In in Hi as [Hi _]. apply in_seq in Hi.
  destruct st as [labels stack]. unfold visit_edge.
  destruct (weight_is_zero w i) eqn:Hw; [|done].
  apply weight_is_zero_true in Hw. destruct (all_cut i); [lia|done].
Qed.

Lemma visit_out_edges_cut cv c st : visit_out_edges g w cv c st = st.
Proof.
  unfold visit_out_edges.
  assert (∀ es, (∀ i, In i es → In i (out_edge_index_iterator cv g)) →
                foldl (visit_edge g w cv c) st es = st) as Hall.
  { induction es as [|i es IH]; intros Hes; [done|].
    cbn [foldl]. rewrite visit_edge_cut by (apply Hes; by left).
    apply IH. intros j Hj. apply Hes. by right. }
  by apply Hall.
Qed.

Lemma flood_nil fuel c labels : flood fuel g w c labels [] = Some labels.
Proof. by destruct fuel. Qed.

Lemma scan_all_cut m : ∀ i,
  i + m = num_vertices g →
  scan g w (seq i m)
       (identity_labels i ++ replicate m invalid_index) (Z.of_nat i) =
  Some (identity_labels (num_vertices g), Z.of_nat (num_vertices g)).
Proof.
  induction m as [|m IH]; intros i Him.
  - cbn [seq scan replicate]. rewrite app_nil_r.
    by replace (num_vertices g) with i by lia.
  - assert (Hlen : length (identity_labels i) = i)
      by (unfold identity_labels; by rewrite length_map, length_seq).
    cbn [seq scan]. unfold label_at at 1.
    rewrite lookup_app_r, Hlen, Nat.sub_diag by lia. cbn [replicate lookup].
    simpl default. rewrite Z.eqb_refl.
    destruct (num_vertices g) as [|n] eqn:Hn; [lia|]. cbn [flood].
    rewrite visit_out_edges_cut, flood_nil.
    replace (<[i:=(Z.of_nat i + 1)%Z]>
               (identity_labels i ++ invalid_index :: replicate m invalid_index))
      with (identity_labels (S i) ++ replicate m invalid_index).
    + replace (Z.of_nat i + 1)%Z with (Z.of_nat (S i)) by lia.
      apply IH. lia.
    + rewrite insert_app_r_alt, Hlen, Nat.sub_diag by lia. cbn [insert].
      unfold identity_labels. rewrite seq_S, map_app. cbn [map].
      rewrite <- app_assoc. simpl. do 3 f_equal. lia.
Qed.

End AllCut.

(** X3.  When no edge has weight zero, vertex [v] receives the label
    [v + 1], on every graph. *)
Theorem labelisation_all_cut g w :
  dimension w = 1 → size w = num_edges g →
  (∀ i, i < num_edges g → data w !! i ≠ Some 0%Z) →
  graph_cut_2_labelisation g w = Ok (identity_labels (num_vertices g)).
Proof.
  intros Hdim Hsize Hcut. unfold graph_cut_2_labelisation, label_components.
  rewrite Hdim, Hsize, Nat.eqb_refl. simpl. unfold mbind, result_bind.
  unfold vertex_iterator.
  pose proof (scan_all_cut g w Hcut (num_vertices g) 0 eq_refl) as Hscan.
  change (scan g w (seq 0 (num_vertices g))
            (replicate (num_vertices g) invalid_index) 0%Z = 
          Some (identity_labels (num_vertices g), Z.of_nat (num_vertices g)))
    in Hscan.
  by rewrite Hscan.
Qed.

Lemma labelisation_all_cut_square :
  graph_cut_2_labelisation square square_all_cut =
  Ok (identity_labels (num_vertices square)).
Proof.
  apply (labelisation_all_cut square square_all_cut);
    [reflexivity | reflexivity |].
  intros i Hi. do 4 (destruct i as [|i]; [vm_compute; congruence|]).
  vm_compute in Hi. lia.
Defined.

(** *** First occurrences *)

Lemma first_or_none (labels : list Z) l m :
  (∀ x, x < m → labels !! x ≠ Some l) ∨
  (∃ d, d < m ∧ labels !! d = Some l ∧ ∀ x, x < d → labels !! x ≠ Some l).
Proof.
  induction m as [|m [Hnone|(d & Hd & Hld & Hfirst)]].
  - left. lia.
  - destruct (decide (labels !! m = Some l)) as [Hm|Hm].
    + right. exists m. split; [lia|done].
    + left. intros x Hx. destruct (decide (x = m)) as [->|?]; [done|].
      apply Hnone. lia.
  - right. exists d. split; [lia|done].
Qed.

Lemma first_occurrence (labels : list Z) l v :
  labels !! v = Some l →
  ∃ d, d ≤ v ∧ labels !! d = Some l ∧ ∀ x, x < d → labels !! x ≠ Some l.
Proof.
  intros Hv. destruct (first_or_none labels l (S v))
    as [Hnone|(d & Hd & Hld & Hfirst)].
  - destruct (Hnone v); [lia|done].
  - exists d. split; [lia|done].
Qed.

Section Discovery.
Context (g : graph) (w : xarray) (labels : list Z) (k : Z).
Hypothesis wf : wf_graph g.
Hypothesis inv : scan_inv g w (num_vertices g) labels k.

(** The vertex that discovers a component receives a label larger than
    every label before it. *)
Lemma discoverer_above d l u lu :
  discovers g w d → d < num_vertices g → labels !! d = Some l →
  u < d → labels !! u = Some lu → (lu < l)%Z.
Proof.
  intros Hd Hdn Hl Hu Hlu.
  assert (Hsame := λ a b, scan_inv_same_label g w labels k a b wf inv).
  destruct (scan_inv_lookup g w labels k d inv Hdn) as (l' & Hl' & Hr).
  assert (l' = l) as -> by congruence.
  destruct (Z.lt_trichotomy lu l) as [Hlt|[Heq|Hgt]]; [done| |].
  - subst lu. destruct (Hd u Hu). apply Hsame; [lia|done|congruence].
  - destruct (scan_inv_smaller g w _ labels k u lu l inv Hlu) as (x & Hx & Hlx);
      [lia|].
    destruct (Hd x); [lia|]. apply Hsame; [lia|done|congruence].
Qed.

Lemma first_discovers d l :
  d < num_vertices g → labels !! d = Some l →
  (∀ x, x < d → labels !! x ≠ Some l) → discovers g w d.
Proof.
  intros Hdn Hl Hfirst x Hx Hconn. apply (Hfirst x Hx).
  rewrite <- Hl. by apply (scan_inv_same_label g w labels k x d wf inv); [lia| |].
Qed.

End Discovery.

(** *** Cutting fewer edges *)

Section Refinement.
Context (g : graph) (w1 w2 : xarray).
Hypothesis wf : wf_graph g.
Hypothesis fewer_cuts :
  ∀ i, data w1 !! i = Some 0%Z → data w2 !! i = Some 0%Z.

Lemma connected_mono u v : connected g w1 u v → connected g w2 u v.
Proof.
  apply rtc_subrel. intros x y (i & s & t & He & Hw & Hxy).
  exists i, s, t. split; [done|split; [by apply fewer_cuts|done]].
Qed.

Context (labels1 labels2 : list Z) (k1 k2 : Z).
Hypothesis inv1 : scan_inv g w1 (num_vertices g) labels1 k1.
Hypothesis inv2 : scan_inv g w2 (num_vertices g) labels2 k2.

Lemma refinement_same u v :
  u < num_vertices g → v < num_vertices g →
  labels1 !! u = labels1 !! v → labels2 !! u = labels2 !! v.
Proof.
  intros Hu Hv Heq.
  apply (scan_inv_same_label g w2 labels2 k2 u v wf inv2); [done|done|].
  apply connected_mono.
  by apply (scan_inv_same_label g w1 labels1 k1 u v wf inv1).
Qed.

Lemma refinement_le : ∀ m v l1 l2,
  v < m → labels1 !! v = Some l1 → labels2 !! v = Some l2 → (l2 ≤ l1)%Z.
Proof.
  induction m as [|m IH]; intros v l1 l2 Hvm Hl1 Hl2; [lia|].
  pose proof (lookup_lt_Some _ _ _ Hl1) as Hv. rewrite (si_length inv1) in Hv.
  destruct (first_occurrence labels1 l1 v Hl1) as (d1 & Hd1 & Hld1 & Hfirst1).
  destruct (first_occurrence labels2 l2 v Hl2) as (d2 & Hd2 & Hld2 & Hfirst2).
  (* the first vertex of the coarser component comes no later *)
  assert (labels2 !! d1 = Some l2) as Hd1l2.
  { rewrite <- Hl2. apply refinement_same; [lia|done|congruence]. }
  assert (d2 ≤ d1) as Hd21.
  { destruct (decide (d2 ≤ d1)) as [|Hgt]; [done|].
    destruct (Hfirst2 d1); [lia|done]. }
  (* it also discovers a component of the finer labelling *)
  assert (discovers g w1 d2) as Hdisc.
  { intros x Hx Hconn. apply (Hfirst2 x Hx). rewrite <- Hld2.
    apply (scan_inv_same_label g w2 labels2 k2 x d2 wf inv2); [lia|lia|].
    by apply connected_mono. }
  destruct (scan_inv_lookup g w1 labels1 k1 d2 inv1) as (n & Hn & Hrn); [lia|].
  assert (l2 ≤ n)%Z as Hl2n.
  { destruct (decide (2 ≤ l2)%Z) as [Hge|]; [|lia].
    destruct (si_growth inv2 d2 l2 Hld2 Hge) as (u & Hu & Hlu).
    destruct (scan_inv_lookup g w1 labels1 k1 u inv1) as (lu & Hlu1 & _); [lia|].
    pose proof (IH u lu (l2 - 1)%Z ltac:(lia) Hlu1 Hlu).
    pose proof (discoverer_above g w1 labels1 k1 wf inv1 d2 n u lu
                  Hdisc ltac:(lia) Hn Hu Hlu1).
    lia. }
  assert (n ≤ l1)%Z as Hnl1.
  { destruct (decide (d2 = d1)) as [->|Hne]; [assert (n = l1) by congruence; lia|].
    assert (discovers g w1 d1) as Hdisc1
      by (apply (first_discovers g w1 labels1 k1 wf inv1 d1 l1); [lia|done|done]).
    pose proof (discoverer_above g w1 labels1 k1 wf inv1 d1 l1 d2 n
                  Hdisc1 ltac:(lia) Hld1 ltac:(lia) Hn).
    lia. }
  lia.
Qed.

Lemma refinement_counter : (k2 ≤ k1)%Z.
Proof.
  pose proof (si_counter inv1). destruct (decide (1 ≤ k2)%Z) as [Hk|]; [|lia].
  destruct (si_used inv2 k2) as (v & Hv & Hl2); [lia|].
  destruct (scan_inv_lookup g w1 labels1 k1 v inv1 Hv) as (l1 & Hl1 & Hr).
  pose proof (refinement_le (S v) v l1 k2 ltac:(lia) Hl1 Hl2). lia.
Qed.

End Refinement.

(** X2.  Marking fewer edges as cut coarsens the labelling: vertices that
    share a label still share one, no vertex receives a larger label, and
    the number of labels does not grow. *)
Theorem labelisation_fewer_cuts g w1 w2 :
  wf_graph g →
  dimension w1 = 1 → size w1 = num_edges g →
  dimension w2 = 1 → size w2 = num_edges g →
  (∀ i, data w1 !! i = Some 0%Z → data w2 !! i = Some 0%Z) →
  ∃ labels1 k1 labels2 k2,
    graph_cut_2_labelisation g w1 = Ok labels1 ∧
    label_components g w1 = Some (labels1, k1) ∧
    graph_cut_2_labelisation g w2 = Ok labels2 ∧
    label_components g w2 = Some (labels2, k2) ∧
    (∀ u v, u < num_vertices g → v < num_vertices g →
            labels1 !! u = labels1 !! v → labels2 !! u = labels2 !! v) ∧
    (∀ v l1 l2, labels1 !! v = Some l1 → labels2 !! v = Some l2 → (l2 ≤ l1)%Z) ∧
    (k2 ≤ k1)%Z.
Proof.
  intros wf Hdim1 Hsize1 Hdim2 Hsize2 Hfewer.
  destruct (labelisation_total g w1 wf Hdim1 Hsize1)
    as (labels1 & k1 & Hk1 & Hrun1 & Hinv1).
  destruct (labelisation_total g w2 wf Hdim2 Hsize2)
    as (labels2 & k2 & Hk2 & Hrun2 & Hinv2).
  exists labels1, k1, labels2, k2. repeat split; try done.
  - by apply (refinement_same g w1 w2 wf Hfewer labels1 labels2 k1 k2).
  - intros v l1 l2.
    by apply (refinement_le g w1 w2 wf Hfewer labels1 labels2 k1 k2 Hinv1 Hinv2 (S v)); lia.
  - by apply (refinement_counter g w1 w2 wf Hfewer labels1 labels2 k1 k2).
Qed.

Lemma labelisation_fewer_cuts_square :
  ∃ labels1 k1 labels2 k2,
    graph_cut_2_labelisation square square_cut = Ok labels1 ∧
    label_components square square_cut = Some (labels1, k1) ∧
    graph_cut_2_labelisation square square_one_cut = Ok labels2 ∧
    label_components square square_one_cut = Some (labels2, k2) ∧
    (∀ u v, u < num_vertices square → v < num_vertices square →
            labels1 !! u = labels1 !! v → labels2 !! u = labels2 !! v) ∧
    (∀ v l1 l2, labels1 !! v = Some l1 → labels2 !! v = Some l2 → (l2 ≤ l1)%Z) ∧
    (k2 ≤ k1)%Z.
Proof.
  apply (labelisation_fewer_cuts square square_cut square_one_cut);
    try (apply wf_graphb_sound; reflexivity); try reflexivity.
  intros i. do 4 (destruct i as [|i]; [vm_compute; congruence|]).
  vm_compute. congruence.
Defined.

(** *** The number of labels *)

(** X6.  The labels that occur in the result are exactly the integers
    from 1 to the final label counter, so the number of distinct labels
    equals that counter, which is at most the number of vertices. *)
Theorem labelisation_distinct_labels g w :
  wf_graph g → dimension w = 1 → size w = num_edges g →
  ∃ labels k,
    graph_cut_2_labelisation g w = Ok labels ∧
    label_components g w = Some (labels, k) ∧
    (∀ l, l ∈ labels ↔ (1 ≤ l ≤ k)%Z) ∧
    distinct_labels labels = Z.to_nat k ∧
    (0 ≤ k ≤ Z.of_nat (num_vertices g))%Z.
Proof.
  intros wf Hdim Hsize.
  destruct (labelisation_total g w wf Hdim Hsize) as (labels & k & Hk & Hrun & Hinv).
  assert (Hmem : ∀ l, l ∈ labels ↔ (1 ≤ l ≤ k)%Z).
  { intros l. split.
    - intros (v & Hv)%list_elem_of_lookup_1.
      pose proof (lookup_lt_Some _ _ _ Hv) as Hlt. rewrite (si_length Hinv) in Hlt.
      destruct (scan_inv_lookup g w labels k v Hinv Hlt) as (l' & Hl' & Hr).
      assert (l' = l) by congruence. lia.
    - intros Hl. destruct (si_used Hinv l Hl) as (v & _ & Hv).
      by eapply list_elem_of_lookup_2. }
  exists labels, k. split; [done|split; [done|split; [done|split]]].
  - unfold distinct_labels. rewrite <- (length_seqZ 1 k).
    apply Permutation_length, NoDup_Permutation.
    + apply NoDup_remove_dups.
    + apply NoDup_seqZ.
    + intros l. rewrite elem_of_remove_dups, Hmem, elem_of_seqZ. lia.
  - apply (si_counter Hinv).
Qed.

Lemma labelisation_distinct_labels_square :
  ∃ labels k,
    graph_cut_2_labelisation square square_cut = Ok labels ∧
    label_components square square_cut = Some (labels, k) ∧
    (∀ l, l ∈ labels ↔ (1 ≤ l ≤ k)%Z) ∧
    distinct_labels labels = Z.to_nat k ∧
    (0 ≤ k ≤ Z.of_nat (num_vertices square))%Z.
Proof.
  apply (labelisation_distinct_labels square square_cut);
    [apply wf_graphb_sound; reflexivity | reflexivity | reflexivity].
Defined.

(** *** Path graphs *)

Lemma path_edge n j s t :
  edges (path_graph n) !! j = Some (s, t) ↔ s = j ∧ t = S j ∧ j < n - 1.
Proof.
  unfold path_graph. cbn [edges].
  change (map ?f ?l) with (f <$> l). rewrite list_lookup_fmap. split.
  - intros Hj. destruct (seq 0 (n - 1) !! j) as [i|] eqn:Hi; [|done].
    apply lookup_seq in Hi as [-> Hlt]. simpl in Hj. by simplify_eq.
  - intros (-> & -> & Hj). by rewrite lookup_seq_lt.
Qed.

Lemma wf_path_graph n : wf_graph (path_graph n).
Proof. intros j s t (-> & -> & Hj)%path_edge. simpl. lia. Qed.

Section Path.
Context (n : nat) (ws : list Z).
Hypothesis length_ws : length ws = n - 1.

Lemma path_checks :
  dimension (array_1d ws) = 1 ∧ size (array_1d ws) = num_edges (path_graph n).
Proof.
  split; [done|]. unfold size, num_edges, path_graph. simpl.
  rewrite length_map, length_seq. lia.
Qed.

Lemma count_non_zero_app l1 l2 :
  count_non_zero (l1 ++ l2) = count_non_zero l1 + count_non_zero l2.
Proof. unfold count_non_zero. by rewrite List.filter_app, length_app. Qed.

Lemma count_non_zero_take_S v x :
  ws !! v = Some x →
  count_non_zero (take (S v) ws) =
  count_non_zero (take v ws) + (if (x =? 0)%Z then 0 else 1).
Proof.
  intros Hv. rewrite (take_S_r _ _ _ Hv), count_non_zero_app.
  unfold count_non_zero at 2. simpl. by destruct (x =? 0)%Z.
Qed.

Lemma count_non_zero_take_mono d : ∀ u,
  count_non_zero (take u ws) ≤ count_non_zero (take (u + d) ws).
Proof.
  induction d as [|d IH]; intros u; [by rewrite Nat.add_0_r|].
  rewrite Nat.add_succ_r. etrans; [apply IH|].
  destruct (ws !! (u + d)) as [x|] eqn:Hx.
  - rewrite (count_non_zero_take_S _ x Hx). lia.
  - apply lookup_ge_None in Hx. by rewrite !take_ge by lia.
Qed.

(** A cut edge of the path separates the vertices before it from those
    after it. *)
Lemma path_cut_separates u x y z :
  ws !! u = Some x → x ≠ 0%Z → y ≤ u →
  connected (path_graph n) (array_1d ws) y z → z ≤ u.
Proof.
  intros Hu Hx Hy. revert z.
  apply (rtc_ind_r (λ z, z ≤ u)); [done|].
  intros a b _ (j & s & t & (-> & -> & Hj)%path_edge & Hw & Hab) Ha.
  simpl in Hw. assert (j ≠ u) by (intros ->; congruence).
  destruct Hab as [[-> ->]|[-> ->]]; lia.
Qed.

Lemma path_labels_lookup v :
  v < n →
  path_labels n ws !! v = Some (1 + Z.of_nat (count_non_zero (take v ws)))%Z.
Proof.
  intros Hv. unfold path_labels. change (map ?f ?l) with (f <$> l).
  by rewrite list_lookup_fmap, lookup_seq_lt.
Qed.

Lemma scan_inv_path labels k :
  scan_inv (path_graph n) (array_1d ws) n labels k →
  ∀ m v, v < m → v < n →
         labels !! v = Some (1 + Z.of_nat (count_non_zero (take v ws)))%Z.
Proof.
  intros Hinv. pose proof (wf_path_graph n) as wf.
  induction m as [|m IH]; intros v Hvm Hv; [lia|].
  destruct (scan_inv_lookup (path_graph n) _ labels k v Hinv Hv) as (l & Hl & Hr).
  destruct v as [|u].
  - pose proof (scan_inv_label_le _ _ _ labels k Hinv 1 0 l ltac:(lia) Hl).
    rewrite Hl. f_equal. change (count_non_zero (take 0 ws)) with 0. lia.
  - assert (u < length ws) as Hu by lia.
    destruct (lookup_lt_is_Some_2 ws u Hu) as [x Hx].
    pose proof (IH u ltac:(lia) ltac:(lia)) as IHu.
    rewrite (count_non_zero_take_S u x Hx).
    assert (edges (path_graph n) !! u = Some (u, S u)) as He
      by (apply path_edge; lia).
    destruct (Z.eqb_spec x 0) as [->|Hne].
    + rewrite Nat.add_0_r.
      apply (si_closed Hinv u (S u)); [split; [done|unfold invalid_index; lia]|].
      exists u, u, (S u). split; [done|split; [done|by left]].
    + assert (discovers (path_graph n) (array_1d ws) (S u)) as Hdisc.
      { intros y Hy Hconn.
        pose proof (path_cut_separates u x y (S u) Hx Hne ltac:(lia) Hconn). lia. }
      pose proof (discoverer_above _ _ labels k wf Hinv (S u) l u _
                    Hdisc Hv Hl ltac:(lia) IHu) as Habove.
      destruct (si_growth Hinv (S u) l Hl ltac:(lia)) as (u' & Hu' & Hlu').
      rewrite (IH u' ltac:(lia) ltac:(lia)) in Hlu'.
      pose proof (count_non_zero_take_mono (u - u') u') as Hmono.
      replace (u' + (u - u')) with u in Hmono by lia.
      rewrite Hl. f_equal. simplify_eq. lia.
Qed.

End Path.

(** X8.  On the path graph [0 - 1 - ... - (n-1)] the label of vertex
    [v] is one more than the number of non-zero weights among the first
    [v] edges: the label grows by one across each cut edge and nowhere
    else. *)
Theorem labelisation_path n ws :
  length ws = n - 1 →
  graph_cut_2_labelisation (path_graph n) (array_1d ws) =
  Ok (path_labels n ws).
Proof.
  intros Hlen. destruct (path_checks n ws Hlen) as [Hdim Hsize].
  destruct (labelisation_total _ _ (wf_path_graph n) Hdim Hsize)
    as (labels & k & _ & -> & Hinv).
  f_equal. apply list_eq. intros v. destruct (decide (v < n)) as [Hv|Hv].
  - rewrite (path_labels_lookup n ws v Hv).
    by apply (scan_inv_path n ws Hlen labels k Hinv (S v)); [lia|].
  - rewrite !lookup_ge_None_2; [done| |].
    + unfold path_labels. rewrite length_map, length_seq. lia.
    + rewrite (si_length Hinv). simpl. lia.
Qed.

Lemma labelisation_path_pink :
  graph_cut_2_labelisation (path_graph 15) (array_1d pink_edge_weights) =
  Ok (path_labels 15 pink_edge_weights).
Proof.
  apply (labelisation_path 15 pink_edge_weights). reflexivity.
Defined.

(** *** Adding an edge *)

Lemma wf_add_edge g a b :
  wf_graph g → a < num_vertices g → b < num_vertices g →
  wf_graph (add_edge a b g).
Proof.
  intros wf Ha Hb i s t [[_ Hi]|[_ Hi]]%lookup_snoc_Some.
  - apply (wf i s t Hi).
  - simpl. by simplify_eq.
Qed.

Lemma checks_1d g ws :
  length ws = num_edges g →
  dimension (array_1d ws) = 1 ∧ size (array_1d ws) = num_edges g.
Proof. intros Hlen. split; [done|]. unfold size. simpl. lia. Qed.

Section AddEdge.
Context (g : graph) (ws : list Z) (a b : nat) (c : Z).
Hypothesis length_ws : length ws = num_edges g.

Lemma add_edge_checks :
  dimension (array_1d (ws ++ [c])) = 1 ∧
  size (array_1d (ws ++ [c])) = num_edges (add_edge a b g).
Proof.
  split; [done|]. unfold size, num_edges, add_edge. simpl.
  rewrite !length_app. simpl. unfold num_edges in length_ws. lia.
Qed.

Lemma adjacent_add_edge x y :
  adjacent (add_edge a b g) (array_1d (ws ++ [c])) x y ↔
  adjacent g (array_1d ws) x y ∨
  (c = 0%Z ∧ ((x = a ∧ y = b) ∨ (x = b ∧ y = a))).
Proof.
  unfold num_edges in length_ws. split.
  - intros (i & s & t & He & Hw & Hxy). simpl in He, Hw.
    apply lookup_snoc_Some in He as [[Hi He]|[Hi He]].
    + left. exists i, s, t. split; [done|split; [|done]]. simpl.
      rewrite lookup_app_l in Hw by lia. done.
    + right. simplify_eq.
      rewrite lookup_app_r, <- length_ws, Nat.sub_diag in Hw by lia.
      simpl in Hw. by simplify_eq.
  - intros [(i & s & t & He & Hw & Hxy)|[-> Hxy]].
    + exists i, s, t. split; [|split; [|done]]; simpl.
      * by apply lookup_app_l_Some.
      * by apply lookup_app_l_Some.
    + exists (length (edges g)), a, b. split; [|split; [|done]]; simpl.
      * apply lookup_snoc_Some. by right.
      * apply lookup_snoc_Some. right. by rewrite length_ws.
Qed.

Lemma connected_add_edge_old x y :
  connected g (array_1d ws) x y →
  connected (add_edge a b g) (array_1d (ws ++ [c])) x y.
Proof.
  apply rtc_subrel. intros u v Huv. apply adjacent_add_edge. by left.
Qed.

Lemma connected_add_cut_edge x y :
  c ≠ 0%Z →
  (connected (add_edge a b g) (array_1d (ws ++ [c])) x y ↔
   connected g (array_1d ws) x y).
Proof.
  intros Hc. split; [|apply connected_add_edge_old].
  apply rtc_subrel. intros u v [Huv|[-> _]]%adjacent_add_edge; done.
Qed.

Lemma connected_add_uncut_edge x y :
  c = 0%Z →
  (connected (add_edge a b g) (array_1d (ws ++ [c])) x y ↔
   connected g (array_1d ws) x y ∨
   (connected g (array_1d ws) x a ∧ connected g (array_1d ws) b y) ∨
   (connected g (array_1d ws) x b ∧ connected g (array_1d ws) a y)).
Proof.
  intros Hc. split.
  - revert y. apply (rtc_ind_r (λ y, _ ∨ _ ∨ _)); [left; apply rtc_refl|].
    intros u v _ [Huv|[_ [[-> ->]|[-> ->]]]]%adjacent_add_edge IH.
    + destruct IH as [H|[[H1 H2]|[H1 H2]]].
      * left. by eapply rtc_r.
      * right. left. split; [done|by eapply rtc_r].
      * right. right. split; [done|by eapply rtc_r].
    + destruct IH as [H|[[H1 H2]|[H1 H2]]].
      * right. left. split; [done|apply rtc_refl].
      * right. left. split; [done|apply rtc_refl].
      * by left.
    + destruct IH as [H|[[H1 H2]|[H1 H2]]].
      * right. right. split; [done|apply rtc_refl].
      * by left.
      * right. right. split; [done|apply rtc_refl].
  - assert (adjacent (add_edge a b g) (array_1d (ws ++ [c])) a b) as Hab
      by (apply adjacent_add_edge; right; split; [done|by left]).
    assert (adjacent (add_edge a b g) (array_1d (ws ++ [c])) b a) as Hba
      by (apply adjacent_add_edge; right; split; [done|by right]).
    intros [H|[[H1 H2]|[H1 H2]]].
    + by apply connected_add_edge_old.
    + eapply rtc_trans; [by apply connected_add_edge_old|].
      eapply rtc_l; [exact Hab|by apply connected_add_edge_old].
    + eapply rtc_trans; [by apply connected_add_edge_old|].
      eapply rtc_l; [exact Hba|by apply connected_add_edge_old].
Qed.

End AddEdge.

(** X9.  An additional edge of weight zero between the vertices [a] and
    [b] merges their two components and nothing else: afterwards two
    vertices share a label exactly when they did before, or when one was
    labelled like [a] and the other like [b]. *)
Theorem labelisation_add_uncut_edge g ws a b :
  wf_graph g → length ws = num_edges g →
  a < num_vertices g → b < num_vertices g →
  ∃ labels labels',
    graph_cut_2_labelisation g (array_1d ws) = Ok labels ∧
    graph_cut_2_labelisation (add_edge a b g) (array_1d (ws ++ [0%Z])) =
      Ok labels' ∧
    ∀ x y, x < num_vertices g → y < num_vertices g →
      (labels' !! x = labels' !! y ↔
       labels !! x = labels !! y ∨
       (labels !! x = labels !! a ∧ labels !! y = labels !! b) ∨
       (labels !! x = labels !! b ∧ labels !! y = labels !! a)).
Proof.
  intros wf Hlen Ha Hb.
  destruct (checks_1d g ws Hlen) as [Hdim Hsize].
  destruct (add_edge_checks g ws a b 0%Z Hlen) as [Hdim' Hsize'].
  pose proof (wf_add_edge g a b wf Ha Hb) as wf'.
  destruct (labelisation_total g _ wf Hdim Hsize)
    as (labels & k & _ & Hrun & Hinv).
  destruct (labelisation_total _ _ wf' Hdim' Hsize')
    as (labels' & k' & _ & Hrun' & Hinv').
  exists labels, labels'. split; [done|split; [done|]]. intros x y Hx Hy.
  assert (Hsame := λ u v, scan_inv_same_label g _ labels k u v wf Hinv).
  rewrite (scan_inv_same_label _ _ labels' k' x y wf' Hinv') by done.
  rewrite (connected_add_uncut_edge g ws a b 0%Z Hlen) by done.
  rewrite !Hsame by done.
  split; intros [H|[[H1 H2]|[H1 H2]]]; auto using connected_sym.
Qed.

Lemma labelisation_add_uncut_edge_square :
  ∃ labels labels',
    graph_cut_2_labelisation square (array_1d [0; 5; 0; 2]%Z) = Ok labels ∧
    graph_cut_2_labelisation (add_edge 0 2 square)
      (array_1d ([0; 5; 0; 2]%Z ++ [0%Z])) = Ok labels' ∧
    ∀ x y, x < num_vertices square → y < num_vertices square →
      (labels' !! x = labels' !! y ↔
       labels !! x = labels !! y ∨
       (labels !! x = labels !! 0 ∧ labels !! y = labels !! 2) ∨
       (labels !! x = labels !! 2 ∧ labels !! y = labels !! 0)).
Proof.
  apply (labelisation_add_uncut_edge square [0; 5; 0; 2]%Z 0 2);
    [apply wf_graphb_sound; reflexivity | reflexivity
    | vm_compute; lia | vm_compute; lia].
Defined.

(** X10.  An additional edge of non-zero weight leaves the label array
    unchanged. *)
Theorem labelisation_add_cut_edge g ws a b c :
  wf_graph g → length ws = num_edges g →
  a < num_vertices g → b < num_vertices g → c ≠ 0%Z →
  graph_cut_2_labelisation (add_edge a b g) (array_1d (ws ++ [c])) =
  graph_cut_2_labelisation g (array_1d ws).
Proof.
  intros wf Hlen Ha Hb Hc.
  destruct (checks_1d g ws Hlen) as [Hdim Hsize].
  destruct (add_edge_checks g ws a b c Hlen) as [Hdim' Hsize'].
  pose proof (wf_add_edge g a b wf Ha Hb) as wf'.
  destruct (labelisation_total g _ wf Hdim Hsize)
    as (labels & k & _ & -> & Hinv).
  destruct (labelisation_total _ _ wf' Hdim' Hsize')
    as (labels' & k' & _ & -> & Hinv').
  f_equal.
  apply (scan_inv_canonical _ _ _ _ labels' k' labels k wf' wf eq_refl Hinv' Hinv).
  intros u v _ _. by apply connected_add_cut_edge.
Qed.

Lemma labelisation_add_cut_edge_square :
  graph_cut_2_labelisation (add_edge 0 2 square)
    (array_1d ([0; 5; 0; 2]%Z ++ [7%Z])) =
  graph_cut_2_labelisation square (array_1d [0; 5; 0; 2]%Z).
Proof.
  apply (labelisation_add_cut_edge square [0; 5; 0; 2]%Z 0 2 7);
    [apply wf_graphb_sound; reflexivity | reflexivity
    | vm_compute; lia | vm_compute; lia | lia].
Defined.

End CutMoreFacts.

(** * The order of the checks and of the memory accesses *)

Module CutTraceFacts.
Import Cut CutFacts CutTrace.

Example square_trace :
  graph_cut_2_labelisation_t square square_cut =
  Traced [Alloc 4; Fill invalid_index;
          Load 0; Store 0 1;
            ReadWeight 0; Load 1; Store 1 1; ReadWeight 3;
            ReadWeight 0; Load 0; ReadWeight 1;
          Load 1;
          Load 2; Store 2 2;
            ReadWeight 1; ReadWeight 2; Load 3; Store 3 2;
            ReadWeight 2; Load 2; ReadWeight 3;
          Load 3]
         (Ok [1; 1; 2; 2]%Z).
Proof. reflexivity. Qed.

(** *** The recorded run returns what the function returns *)

Lemma events_bind {A B} (m : traced A) (k : A → traced B) :
  events (m ≫= k) =
  events m ++ match outcome m with Ok a => events (k a) | _ => [] end.
Proof.
  unfold mbind, traced_bind. destruct (outcome m); simpl; [done| |];
    by rewrite app_nil_r.
Qed.

Lemma outcome_bind {A B} (m : traced A) (k : A → traced B) :
  outcome (m ≫= k) =
  match outcome m with
  | Ok a => outcome (k a)
  | Throw msg => Throw msg
  | OutOfFuel => OutOfFuel
  end.
Proof. unfold mbind, traced_bind. by destruct (outcome m). Qed.

Section Erasure.
Context (g : graph) (w : xarray).

Lemma visit_edge_t_outcome cv c st i :
  outcome (visit_edge_t g w cv c st i) = Ok (visit_edge g w cv c st i).
Proof.
  destruct st as [labels stack]. unfold visit_edge_t, visit_edge.
  rewrite outcome_bind. simpl.
  destruct (weight_is_zero w i); [|done].
  destruct (edge i g) as [e|]; [|done].
  rewrite outcome_bind. simpl.
  by destruct (label_at labels (other_vertex e cv) =? invalid_index)%Z.
Qed.

Lemma visit_out_edges_t_outcome cv c st :
  outcome (visit_out_edges_t g w cv c st) = Ok (visit_out_edges g w cv c st).
Proof.
  unfold visit_out_edges_t, visit_out_edges. revert st.
  induction (out_edge_index_iterator cv g) as [|i es IH]; intros st; [done|].
  cbn [for_each foldl]. by rewrite outcome_bind, visit_edge_t_outcome, IH.
Qed.

Lemma flood_t_outcome fuel c : ∀ labels stack,
  outcome (flood_t fuel g w c labels stack) =
  of_option (flood fuel g w c labels stack).
Proof.
  induction fuel as [|fuel IH]; intros labels [|cv stack]; try done.
  cbn [flood_t flood]. rewrite outcome_bind, visit_out_edges_t_outcome.
  destruct (visit_out_edges g w cv c (labels, stack)) as [labels1 stack1].
  apply IH.
Qed.

Lemma scan_t_outcome vs : ∀ labels k,
  outcome (scan_t g w vs labels k) = of_option (scan g w vs labels k).
Proof.
  induction vs as [|v vs IH]; intros labels k; [done|].
  cbn [scan_t scan]. rewrite outcome_bind. simpl.
  destruct (label_at labels v =? invalid_index)%Z; [|apply IH].
  rewrite !outcome_bind, flood_t_outcome. simpl.
  destruct (flood _ g w _ _ _); [apply IH|done].
Qed.

(** The recorded run has the outcome of [graph_cut_2_labelisation]. *)
Lemma graph_cut_2_labelisation_t_outcome :
  outcome (graph_cut_2_labelisation_t g w) = graph_cut_2_labelisation g w.
Proof.
  unfold graph_cut_2_labelisation_t, graph_cut_2_labelisation, label_components.
  rewrite !outcome_bind. simpl.
  destruct (dimension w =? 1); [|done]. simpl.
  destruct (num_edges g =? size w); [|done]. simpl.
  rewrite scan_t_outcome.
  by destruct (scan g w _ _ _) as [[labels k]|].
Qed.

End Erasure.

Lemma bad_weights_trace g w :
  dimension w ≠ 1 ∨ size w ≠ num_edges g →
  graph_cut_2_labelisation_t g w =
    Traced [] (Throw (if dimension w =? 1
                      then "Edge weights size does not match graph number of edges."
                      else "Edge weights must be scalar.")).
Proof.
  intros Hbad. unfold graph_cut_2_labelisation_t.
  destruct (Nat.eqb_spec (dimension w) 1) as [Hdim|Hdim]; [|done].
  destruct (Nat.eqb_spec (num_edges g) (size w)) as [Hsize|Hsize]; [|done].
  destruct Hbad; congruence.
Qed.

(** C7.  When the weight array is not one-dimensional, or its number of
    elements differs from the number of edges, the call throws with the
    message of the first test that fails, and it does so before any
    access to memory: the run records no allocation, no fill, no write
    and no read of the labels or of the weights, and no label array is
    returned. *)
Theorem labelisation_checks_before_output g w :
  dimension w ≠ 1 ∨ size w ≠ num_edges g →
  graph_cut_2_labelisation_t g w =
    Traced [] (Throw (if dimension w =? 1
                      then "Edge weights size does not match graph number of edges."
                      else "Edge weights must be scalar.")) ∧
  graph_cut_2_labelisation g w =
    Throw (if dimension w =? 1
           then "Edge weights size does not match graph number of edges."
           else "Edge weights must be scalar.") ∧
  ∀ labels, graph_cut_2_labelisation g w ≠ Ok labels.
Proof.
  intros Hbad. pose proof (bad_weights_trace g w Hbad) as Hrun.
  split; [done|]. rewrite <- graph_cut_2_labelisation_t_outcome, Hrun.
  by split.
Qed.

Lemma labelisation_checks_before_output_path :
  graph_cut_2_labelisation_t (path_graph 16) (array_1d pink_edge_weights) =
    Traced [] (Throw "Edge weights size does not match graph number of edges.") ∧
  graph_cut_2_labelisation (path_graph 16) (array_1d pink_edge_weights) =
    Throw "Edge weights size does not match graph number of edges." ∧
  ∀ labels, graph_cut_2_labelisation (path_graph 16)
              (array_1d pink_edge_weights) ≠ Ok labels.
Proof.
  apply (labelisation_checks_before_output (path_graph 16)
           (array_1d pink_edge_weights)).
  right. vm_compute. lia.
Defined.

(** A two-dimensional array with one element per edge: nothing is
    recorded before the throw either. *)
Example matrix_trace :
  graph_cut_2_labelisation_t square (XArray [2; 2] [0; 5; 0; 2]%Z) =
  Traced [] (Throw "Edge weights must be scalar.").
Proof. reflexivity. Qed.

(** Conversely the output is touched exactly when both tests pass: the
    run then starts with the allocation and the fill of the labels. *)
Lemma labelisation_allocates_after_checks g w :
  dimension w = 1 → size w = num_edges g →
  ∃ rest, events (graph_cut_2_labelisation_t g w) =
          Alloc (num_vertices g) :: Fill invalid_index :: rest.
Proof.
  intros Hdim Hsize. unfold graph_cut_2_labelisation_t.
  rewrite Hdim, Hsize, Nat.eqb_refl. rewrite !events_bind. simpl.
  by eexists.
Qed.

Lemma labelisation_touches_output_iff g w :
  existsb touches_output (events (graph_cut_2_labelisation_t g w)) =
  (dimension w =? 1) && (num_edges g =? size w).
Proof.
  destruct (Nat.eqb_spec (dimension w) 1) as [Hdim|Hdim].
  - destruct (Nat.eqb_spec (num_edges g) (size w)) as [Hsize|Hsize].
    + destruct (labelisation_allocates_after_checks g w Hdim (eq_sym Hsize))
        as [rest ->]. done.
    + rewrite bad_weights_trace; [done|]. right. congruence.
  - rewrite bad_weights_trace; [done|]. by left.
Qed.

(** *** Every access is within bounds *)

Lemma for_each_events {A S} (P : event → Prop) (body : S → A → traced S) l :
  ∀ s, (∀ s x, In x l → Forall P (events (body s x))) →
       Forall P (events (for_each body s l)).
Proof.
  induction l as [|x l IH]; intros s Hbody; [constructor|].
  cbn [for_each]. rewrite events_bind. apply Forall_app. split.
  - apply Hbody. by left.
  - destruct (outcome (body s x)); [|constructor|constructor].
    apply IH. intros s' y Hy. apply Hbody. by right.
Qed.

Section Bounds.
Context (g : graph) (w : xarray).
Hypothesis wf : wf_graph g.
Hypothesis size_w : size w = num_edges g.

Lemma other_vertex_in_range i e cv :
  edge i g = Some e → other_vertex e cv < num_vertices g.
Proof.
  destruct e as [s t]. intros He. destruct (wf i s t He) as [Hs Ht].
  unfold other_vertex. simpl. by destruct (s =? cv).
Qed.

Lemma visit_edge_t_in_bounds cv c st i :
  In i (out_edge_index_iterator cv g) →
  Forall (in_bounds g w) (events (visit_edge_t g w cv c st i)).
Proof.
  intros Hi. apply filter_In in Hi as [Hi _]. apply in_seq in Hi.
  destruct st as [labels stack]. unfold visit_edge_t.
  rewrite events_bind. simpl. constructor; [simpl; lia|].
  destruct (weight_is_zero w i); [|constructor].
  destruct (edge i g) as [e|] eqn:He; [|constructor].
  pose proof (other_vertex_in_range i e cv He) as Hn.
  rewrite events_bind. simpl. constructor; [done|].
  destruct (label_at labels (other_vertex e cv) =? invalid_index)%Z;
    [|constructor].
  rewrite events_bind. simpl. by repeat constructor.
Qed.

Lemma flood_t_in_bounds fuel c : ∀ labels stack,
  Forall (in_bounds g w) (events (flood_t fuel g w c labels stack)).
Proof.
  induction fuel as [|fuel IH]; intros labels [|cv stack]; try constructor.
  cbn [flood_t]. rewrite events_bind. apply Forall_app. split.
  - apply for_each_events. intros s i Hi. by apply visit_edge_t_in_bounds.
  - destruct (outcome _); [apply IH|constructor|constructor].
Qed.

Lemma scan_t_in_bounds vs : ∀ labels k,
  (∀ v, In v vs → v < num_vertices g) →
  Forall (in_bounds g w) (events (scan_t g w vs labels k)).
Proof.
  induction vs as [|v vs IH]; intros labels k Hvs; [constructor|].
  assert (v < num_vertices g) as Hv by (apply Hvs; by left).
  assert (∀ u, In u vs → u < num_vertices g) as Hvs'
    by (intros u Hu; apply Hvs; by right).
  cbn [scan_t]. rewrite events_bind. simpl. constructor; [done|].
  destruct (label_at labels v =? invalid_index)%Z; [|by apply IH].
  rewrite events_bind. simpl. constructor; [done|].
  rewrite events_bind. apply Forall_app. split; [apply flood_t_in_bounds|].
  destruct (outcome _); [by apply IH|constructor|constructor].
Qed.

End Bounds.

(** X11.  On a graph whose edges join vertices of the graph, every
    access of the call is within bounds, whatever the weight array: the
    allocation has one entry per vertex, the labels are read and written
    at vertex indices only, and the weights are read at indices below
    their number of elements only. *)
Theorem labelisation_accesses_in_bounds g w :
  wf_graph g →
  Forall (in_bounds g w) (events (graph_cut_2_labelisation_t g w)).
Proof.
  intros wf. unfold graph_cut_2_labelisation_t.
  rewrite events_bind. simpl.
  destruct (dimension w =? 1); [|constructor]. simpl.
  rewrite events_bind. simpl.
  destruct (Nat.eqb_spec (num_edges g) (size w)) as [Hsize|]; [|constructor].
  simpl. rewrite !events_bind. simpl. constructor; [done|].
  constructor; [done|]. apply Forall_app. split.
  - apply scan_t_in_bounds; [done|done|].
    intros v Hv. unfold vertex_iterator in Hv. apply in_seq in Hv. lia.
  - destruct (outcome _); constructor.
Qed.

Lemma labelisation_accesses_in_bounds_square :
  Forall (in_bounds square square_cut)
         (events (graph_cut_2_labelisation_t square square_cut)).
Proof.
  apply (labelisation_accesses_in_bounds square square_cut).
  apply wf_graphb_sound. reflexivity.
Defined.

End CutTraceFacts.
